(** * Number-theoretic primitives of [integer_advanced.py]

    A shallow embedding of
    [DataStructures/1_Primitive_Data_Structures/integer_advanced.py]:
    bit hacks, the integer-backed bitset, the extended Euclidean algorithm,
    the modular inverse, the Miller-Rabin test and the odds-only sieve.

    Python's [int] is unbounded, so it is [Z].  Python's [//] and [%] are
    floor division and its remainder, which is what [Z.div] and [Z.modulo]
    compute for a non-zero divisor; [&], [|], [^] and [~] act on the
    infinite two's-complement representation, as [Z.land], [Z.lor],
    [Z.lxor] and [Z.lnot] do. *)

From Stdlib Require Import ZArith Zdivisibility Lia List Bool String Sorted.
From Stdlib Require Zmod.
From Equations Require Import Equations.
Import ListNotations.
Local Open Scope Z_scope.

(** ** Python values and exceptions *)

Inductive exn : Type :=
| ValueError (msg : string)
| ZeroDivisionError (msg : string).

Inductive result (A : Type) : Type :=
| Ok (a : A)
| Raise (e : exn).
Arguments Ok {A} a.
Arguments Raise {A} e.

Definition bind {A B : Type} (m : result A) (k : A -> result B) : result B :=
  match m with
  | Ok a => k a
  | Raise e => Raise e
  end.

Notation "x <- m ;; k" := (bind m (fun x => k))
  (at level 61, m at next level, right associativity).

(** [x << i]: a negative shift count raises [ValueError]. *)
Definition lshift (x i : Z) : result Z :=
  if i <? 0 then Raise (ValueError "negative shift count")
  else Ok (Z.shiftl x i).

(** [x >> i]: a negative shift count raises [ValueError]. *)
Definition rshift (x i : Z) : result Z :=
  if i <? 0 then Raise (ValueError "negative shift count")
  else Ok (Z.shiftr x i).

(** [x % m]: a zero modulus raises [ZeroDivisionError]. *)
Definition pymod (x m : Z) : result Z :=
  if m =? 0 then Raise (ZeroDivisionError "integer modulo by zero")
  else Ok (x mod m).

(** [x.bit_length()]: the number of bits of [|x|], 0 for 0. *)
Definition bit_length (x : Z) : Z :=
  if x =? 0 then 0 else Z.log2 (Z.abs x) + 1.

(** [range(start, stop, step)] for a positive [step]. *)
Definition range (start stop step : Z) : list Z :=
  map (fun k => start + step * Z.of_nat k)
      (seq 0 (Z.to_nat ((stop - start + step - 1) / step))).

(** The built-in [pow(b, e, m)] by square and multiply over the binary
    digits of the exponent.  It is used here with [0 <= e] and [m <> 0]
    only (the exponent is an odd part of [n - 1] with [n >= 31]), where
    the built-in returns [(b ^ e) % m]; see [pow3_spec]. *)
Fixpoint pow3_pos (b : Z) (e : positive) (m : Z) : Z :=
  match e with
  | xH => b mod m
  | xO e' => let h := pow3_pos b e' m in (h * h) mod m
  | xI e' => let h := pow3_pos b e' m in (h * h * b) mod m
  end.

Definition pow3 (b e m : Z) : Z :=
  match e with
  | Z0 => 1 mod m
  | Zpos p => pow3_pos b p m
  | Zneg _ => 0
  end.

(** ** Bit hacks *)

Definition lowbit (x : Z) : Z := Z.land x (- x).

Definition msb_index (x : Z) : result Z :=
  if x <=? 0 then Raise (ValueError "x must be positive")
  else Ok (bit_length x - 1).

Definition mask_low (nbits : Z) : result Z :=
  if 0 <? nbits then (v <- lshift 1 nbits ;; Ok (v - 1)) else Ok 0.

(** ** Bitset on a single integer *)

(** The [for] loop of [bitset_from_indices], with [bs] as accumulator. *)
Fixpoint bitset_from_indices_loop (indices : list Z) (bs : Z) : result Z :=
  match indices with
  | [] => Ok bs
  | i :: rest =>
      if i <? 0 then Raise (ValueError "indices must be non-negative")
      else v <- lshift 1 i ;; bitset_from_indices_loop rest (Z.lor bs v)
  end.

Definition bitset_from_indices (indices : list Z) : result Z :=
  bitset_from_indices_loop indices 0.

Definition bitset_add (bs i : Z) : result Z :=
  v <- lshift 1 i ;; Ok (Z.lor bs v).

Definition bitset_remove (bs i : Z) : result Z :=
  v <- lshift 1 i ;; Ok (Z.land bs (Z.lnot v)).

Definition bitset_contains (bs i : Z) : result bool :=
  v <- rshift bs i ;; Ok (Z.land v 1 =? 1).

(** The generator [bitset_iter], run to exhaustion: the list of the values
    it yields.  Each unit of [fuel] pays for one turn of the [while] loop;
    [None] means the loop was still running when the fuel ran out (on a
    negative [bs] it never stops). *)
Fixpoint bitset_iter (fuel : nat) (bs : Z) : option (list Z) :=
  if bs =? 0 then Some []
  else
    match fuel with
    | O => None
    | S fuel' =>
        let lb := Z.land bs (- bs) in
        match bitset_iter fuel' (Z.lxor bs lb) with
        | Some ys => Some (bit_length lb - 1 :: ys)
        | None => None
        end
    end.

(** ** Extended Euclid *)

(** The six loop variables of [egcd]. *)
Record egcd_state : Type := mk_egcd_state {
  old_r : Z; r : Z;
  old_s : Z; s : Z;
  old_t : Z; t : Z
}.

Definition egcd_init (a b : Z) : egcd_state :=
  {| old_r := a; r := b; old_s := 1; s := 0; old_t := 0; t := 1 |}.

(** One turn of the loop body. *)
Definition egcd_step (st : egcd_state) : egcd_state :=
  let q := old_r st / r st in
  {| old_r := r st; r := old_r st - q * r st;
     old_s := s st; s := old_s st - q * s st;
     old_t := t st; t := old_t st - q * t st |}.

(** [while r: ...]: the remainder shrinks in absolute value at each turn. *)
Equations egcd_loop (st : egcd_state) : egcd_state
  by wf (Z.abs_nat (r st)) lt :=
  egcd_loop st with Z.eq_dec (r st) 0 := {
    | left _ => st
    | right Hr => egcd_loop (egcd_step st) }.
Next Obligation.
  replace (old_r st - old_r st / r st * r st) with (old_r st mod r st)
    by (rewrite Z.mod_eq by assumption; ring).
  destruct (Z_lt_le_dec (r st) 0) as [Hneg | Hpos].
  - pose proof (Z.mod_neg_bound (old_r st) (r st) Hneg). lia.
  - pose proof (Z.mod_pos_bound (old_r st) (r st) ltac:(lia)). lia.
Qed.

Definition egcd_result (st : egcd_state) : Z * Z * Z :=
  (old_r st, old_s st, old_t st).

Definition egcd (a b : Z) : Z * Z * Z :=
  egcd_result (egcd_loop (egcd_init a b)).

Definition modinv (a m : Z) : result Z :=
  am <- pymod a m ;;
  let '(g, x, _) := egcd am m in
  if negb (g =? 1) then Raise (ValueError "inverse does not exist")
  else pymod x m.

(** ** Miller-Rabin *)

Definition _DET_BASES_64 : list Z := [2; 3; 5; 7; 11; 13; 17].

(** The halving loop of [_decompose] on the binary digits of [d]: [d] is
    even exactly when its last digit is 0, and [d // 2] drops that digit
    (also for a negative [d], as [//] rounds down and [d] is even). *)
Fixpoint _decompose_loop (d : positive) (sgn : positive -> Z) (s : Z) : Z * Z :=
  match d with
  | xO d' => _decompose_loop d' sgn (s + 1)
  | _ => (sgn d, s)
  end.

(** [None]: for [n = 1] the loop starts at [d = 0] and never leaves it. *)
Definition _decompose (n : Z) : option (Z * Z) :=
  match n - 1 with
  | Z0 => None
  | Zpos d => Some (_decompose_loop d Zpos 0)
  | Zneg d => Some (_decompose_loop d Zneg 0)
  end.

(** The [for _ in range(s - 1)] loop of [_check_witness]. *)
Fixpoint _check_witness_loop (k : nat) (x n : Z) : bool :=
  match k with
  | O => false
  | S k' =>
      let x := (x * x) mod n in
      if x =? n - 1 then true else _check_witness_loop k' x n
  end.

Definition _check_witness (a s d n : Z) : bool :=
  let x := pow3 a d n in
  if (x =? 1) || (x =? n - 1) then true
  else _check_witness_loop (Z.to_nat (s - 1)) x n.

Definition small : list Z := [2; 3; 5; 7; 11; 13; 17; 19; 23; 29].

(** Trial division: [Some v] when the loop returns [v], [None] when it
    falls through. *)
Fixpoint trial_division (n : Z) (ps : list Z) : option bool :=
  match ps with
  | [] => None
  | p :: ps' =>
      if n =? p then Some true
      else if n mod p =? 0 then Some false
      else trial_division n ps'
  end.

Section Primality.

(** The random source: [randrange k lo hi] is the value of the [k]-th
    call [random.randrange(lo, hi)] made by one run. *)
Variable randrange : nat -> Z -> Z -> Z.

(** [None] stands for a run that does not return. *)
Definition is_probable_prime (n rounds : Z) : option bool :=
  if n <? 2 then Some false
  else
    match trial_division n small with
    | Some v => Some v
    | None =>
        match _decompose n with
        | None => None
        | Some (d, s) =>
            let bases :=
              if n <? Z.shiftl 1 64 then _DET_BASES_64
              else map (fun k => randrange k 2 (n - 2))
                       (seq 0 (Z.to_nat rounds)) in
            Some (forallb (fun a => _check_witness a s d n) bases)
        end
    end.

End Primality.

(** ** Sieve of Eratosthenes on a bitset of the odd numbers *)

(** The inner loop: mark [start], [start + step], ... below [size]. *)
Definition sieve_mark (composite start size step : Z) : Z :=
  fold_left (fun c j => Z.lor c (Z.shiftl 1 j)) (range start size step) composite.

(** The body of the outer loop for one odd [i]. *)
Definition sieve_visit (size composite i : Z) : Z :=
  let idx := i / 2 in
  if Z.land (Z.shiftr composite idx) 1 =? 0
  then sieve_mark composite ((i * i) / 2) size i
  else composite.

(** The outer loop, over the odd [i] from 3 to [rt]. *)
Definition sieve_composite (size rt : Z) : Z :=
  fold_left (sieve_visit size) (range 3 (rt + 1) 2) 0.

(** [int(limit ** 0.5)] is taken as the integer square root [Z.sqrt limit],
    which it equals as long as the float square root is exact enough (for
    every [limit] below [2^52]).  All shift counts are non-negative here
    ([idx >= 1] and [j >= 4]), so the shifts cannot raise. *)
Definition sieve (limit : Z) : list Z :=
  if limit <? 2 then []
  else
    let size := limit / 2 in
    let composite := sieve_composite size (Z.sqrt limit) in
    2 :: map (fun i => 2 * i + 1)
             (filter (fun i => (Z.land (Z.shiftr composite i) 1 =? 0)
                               && (2 * i + 1 <=? limit))
                     (range 1 size 1)).

(** ** [integer_basics.py] *)

Definition is_even (n : Z) : bool := Z.land n 1 =? 0.

(** The loop of [count_set_bits], one unit of [fuel] per turn; [None]
    when the loop is still running as the fuel runs out. *)
Fixpoint count_set_bits_loop (fuel : nat) (n c : Z) : option Z :=
  if n =? 0 then Some c
  else
    match fuel with
    | O => None
    | S fuel' => count_set_bits_loop fuel' (Z.land n (n - 1)) (c + 1)
    end.

Definition count_set_bits (fuel : nat) (n : Z) : option Z :=
  count_set_bits_loop fuel n 0.

(** [while b: a, b = b, a % b]. *)
Equations gcd_loop (a b : Z) : Z by wf (Z.abs_nat b) lt :=
  gcd_loop a b with Z.eq_dec b 0 := {
    | left _ => a
    | right Hb => gcd_loop b (a mod b) }.
Next Obligation.
  destruct (Z_lt_le_dec b 0) as [Hneg | Hpos].
  - pose proof (Z.mod_neg_bound a b Hneg). lia.
  - pose proof (Z.mod_pos_bound a b ltac:(lia)). lia.
Qed.

Definition gcd (a b : Z) : Z := Z.abs (gcd_loop a b).

Definition lcm (a b : Z) : Z :=
  if (a =? 0) || (b =? 0) then 0 else Z.abs (a / gcd a b * b).

(** ** Executable checks used in the proofs *)

(** [f] holds of the [k] integers from [lo] on. *)
Fixpoint all_from (k : nat) (lo : Z) (f : Z -> bool) : bool :=
  match k with
  | O => true
  | S k' => if f lo then all_from k' (lo + 1) f else false
  end.

(** No divisor between 2 and the integer square root. *)
Definition no_small_divisor (n : Z) : bool :=
  all_from (Z.to_nat (Z.sqrt n - 1)) 2 (fun d => negb (n mod d =? 0)).

(** If [is_probable_prime] accepts [n], it has no such divisor. *)
Definition accepted_is_prime (n : Z) : bool :=
  match is_probable_prime (fun _ lo _ => lo) n 8 with
  | Some true => no_small_divisor n
  | _ => true
  end.

(** ** Loop invariants used in the proofs *)

(** Bezout coefficients and the gcd, up to sign. *)
Definition egcd_inv (a b : Z) (st : egcd_state) : Prop :=
  a * old_s st + b * old_t st = old_r st /\
  a * s st + b * t st = r st /\
  Z.gcd (old_r st) (r st) = Z.gcd a b.

(** The remainders from [b] on carry the sign of [b]. *)
Definition egcd_nonneg (st : egcd_state) : Prop :=
  0 <= r st /\ (r st = 0 -> 0 <= old_r st).

Definition egcd_nonpos (st : egcd_state) : Prop :=
  r st <= 0 /\ (r st = 0 -> old_r st <= 0).

(** Every marked position stands for a product [i * (i + 2k)], [i >= 3]. *)
Definition marks_sound (size c : Z) : Prop :=
  forall j, Z.testbit c j = true ->
    exists i k, 3 <= i /\ Z.odd i = true /\ 0 <= k /\
                j = (i * i) / 2 + i * k /\ j < size.

Definition odd_from_3 (i : Z) : Prop := 3 <= i /\ Z.odd i = true.

(** * Properties *)

Example sieve_50 :
  sieve 50 = [2; 3; 5; 7; 11; 13; 17; 19; 23; 29; 31; 37; 41; 43; 47].
Proof. vm_compute. reflexivity. Qed.

Example sieve_1_2 : sieve 1 = [] /\ sieve 2 = [2].
Proof. split; reflexivity. Qed.

Example egcd_240_46 : egcd 240 46 = (2, -9, 47).
Proof. vm_compute. reflexivity. Qed.

Example modinv_3_11 : modinv 3 11 = Ok 4.
Proof. vm_compute. reflexivity. Qed.

Example bitset_demo :
  bitset_from_indices [0; 2; 5] = Ok 37 /\ bitset_iter 3 37 = Some [0; 2; 5].
Proof. split; vm_compute; reflexivity. Qed.

(** ** The lowest set bit *)

(** Every positive number is a power of two times an odd number. *)
Lemma pos_pow2_odd (p : positive) :
  exists k m, 0 <= k /\ 0 <= m /\ Zpos p = 2 ^ k * (2 * m + 1).
Proof.
  induction p as [p _ | p [k [m [Hk [Hm IH]]]] | ].
  - exists 0, (Zpos p). repeat split; lia.
  - exists (k + 1), m. repeat split; try lia.
    rewrite Z.pow_add_r by lia. change (Zpos p~0) with (2 * Zpos p). rewrite IH. ring.
  - exists 0, 0. repeat split; lia.
Qed.

Lemma land_odd_opp (m : Z) : Z.land (2 * m + 1) (- (2 * m + 1)) = 1.
Proof.
  replace (- (2 * m + 1)) with (2 * Z.lnot m + 1) by (unfold Z.lnot; lia).
  apply Z.bits_inj'. intros i Hi.
  rewrite Z.land_spec.
  destruct (Z.eq_dec i 0) as [-> | Hne].
  - rewrite !Z.testbit_odd_0. reflexivity.
  - replace i with (Z.succ (i - 1)) by lia.
    rewrite !Z.testbit_odd_succ by lia.
    rewrite Z.lnot_spec by lia.
    rewrite andb_negb_r. symmetry.
    apply (Z.pow2_bits_false 0). lia.
Qed.

Lemma lowbit_pow2_odd (k m : Z) :
  0 <= k -> lowbit (2 ^ k * (2 * m + 1)) = 2 ^ k.
Proof.
  intros Hk. unfold lowbit.
  replace (- (2 ^ k * (2 * m + 1))) with (- (2 * m + 1) * 2 ^ k) by ring.
  rewrite (Z.mul_comm (2 ^ k)).
  rewrite <- !Z.shiftl_mul_pow2 by assumption.
  rewrite <- Z.shiftl_land, land_odd_opp.
  rewrite Z.shiftl_mul_pow2 by assumption. ring.
Qed.

(** (C9) [lowbit 0] is 0, a value and not an error, and for every positive
    [x] the result [lowbit x] is the largest power of two that divides [x]:
    it is [2^k] for a [k] with [2^k | x], and no higher power divides [x]. *)
Theorem lowbit_zero_and_largest_pow2 :
  lowbit 0 = 0 /\
  forall x, 0 < x ->
    exists k, 0 <= k /\ lowbit x = 2 ^ k /\ (2 ^ k | x) /\
              forall j, 0 <= j -> (2 ^ j | x) -> j <= k.
Proof.
  split; [reflexivity |].
  intros x Hx. destruct x as [| p | p]; try lia.
  destruct (pos_pow2_odd p) as [k [m [Hk [Hm Hp]]]].
  exists k. rewrite Hp. repeat split.
  - assumption.
  - now apply lowbit_pow2_odd.
  - exists (2 * m + 1). ring.
  - intros j Hj [c Hc].
    destruct (Z_le_gt_dec j k) as [Hle | Hgt]; [assumption | exfalso].
    replace j with (k + 1 + (j - k - 1)) in Hc by lia.
    rewrite !Z.pow_add_r in Hc by lia.
    assert (Hpos : 0 < 2 ^ k) by (apply Z.pow_pos_nonneg; lia).
    assert (Heq : 2 * m + 1 = 2 * (c * 2 ^ (j - k - 1))) by nia.
    lia.
Qed.

Lemma lowbit_zero_and_largest_pow2_witness :
  exists k, 0 <= k /\ lowbit 52 = 2 ^ k /\ (2 ^ k | 52) /\
            forall j, 0 <= j -> (2 ^ j | 52) -> j <= k.
Proof.
  apply (proj2 lowbit_zero_and_largest_pow2 52). lia.
Defined.

(** ** Bitset *)

(** [((bs >> i) & 1) == 1] reads bit [i]. *)
Lemma contains_testbit (bs i : Z) :
  0 <= i -> (Z.land (Z.shiftr bs i) 1 =? 1) = Z.testbit bs i.
Proof.
  intros Hi.
  change 1 with (Z.ones 1) at 1. rewrite Z.land_ones by lia.
  rewrite Z.pow_1_r, <- Z.bit0_mod, Z.shiftr_spec by lia.
  rewrite Z.add_0_l. now destruct (Z.testbit bs i).
Qed.

Lemma shiftl_1_testbit (i j : Z) :
  0 <= i -> Z.testbit (Z.shiftl 1 i) j = (i =? j).
Proof.
  intros Hi. rewrite Z.shiftl_mul_pow2, Z.mul_1_l by assumption.
  rewrite Z.pow2_bits_eqb by assumption. reflexivity.
Qed.

Lemma bitset_from_indices_loop_spec (indices : list Z) :
  Forall (fun i => 0 <= i) indices ->
  forall acc, 0 <= acc ->
    exists bs, bitset_from_indices_loop indices acc = Ok bs /\ 0 <= bs /\
               forall j, Z.testbit bs j = true <->
                         Z.testbit acc j = true \/ In j indices.
Proof.
  induction 1 as [| i rest Hi _ IH]; intros acc Hacc.
  - exists acc. simpl. intuition.
  - simpl. destruct (Z.ltb_spec i 0) as [Hlt | _]; [lia |].
    unfold lshift. destruct (Z.ltb_spec i 0) as [Hlt | _]; [lia |]. simpl.
    destruct (IH (Z.lor acc (Z.shiftl 1 i))) as [bs [Hrun [Hbs Hbits]]].
    + apply Z.lor_nonneg. split; [assumption |]. apply Z.shiftl_nonneg. lia.
    + exists bs. split; [assumption | split; [assumption |]].
      intros j. rewrite Hbits, Z.lor_spec, orb_true_iff, shiftl_1_testbit by assumption.
      rewrite Z.eqb_eq. tauto.
Qed.

(** For a positive bitset [2^k * (2m+1)], clearing the lowest set bit. *)
Lemma lxor_lowbit (k m : Z) :
  0 <= k ->
  Z.lxor (2 ^ k * (2 * m + 1)) (2 ^ k) = 2 ^ (k + 1) * m.
Proof.
  intros Hk.
  assert (Hdisj : Z.land (2 ^ (k + 1) * m) (2 ^ k) = 0).
  { apply Z.bits_inj'. intros j Hj.
    rewrite Z.land_spec, Z.bits_0, Z.pow2_bits_eqb by assumption.
    destruct (Z.eqb_spec k j) as [<- | _]; [| apply andb_false_r].
    rewrite Z.mul_comm, Z.mul_pow2_bits_low by lia. reflexivity. }
  apply Z.add_nocarry_lxor in Hdisj.
  replace (2 ^ k * (2 * m + 1)) with (2 ^ (k + 1) * m + 2 ^ k)
    by (rewrite Z.pow_add_r by lia; ring).
  rewrite Hdisj, Z.lxor_assoc, Z.lxor_nilpotent, Z.lxor_0_r. reflexivity.
Qed.

(** With fuel at least [bs], the generator on a non-negative [bs] runs to
    its end and has yielded the positions of the set bits, lowest first. *)
Lemma bitset_iter_spec (fuel : nat) :
  forall bs, 0 <= bs <= Z.of_nat fuel ->
    exists out, bitset_iter fuel bs = Some out /\
                StronglySorted Z.lt out /\
                forall j, In j out <-> Z.testbit bs j = true.
Proof.
  induction fuel as [| fuel IH]; intros bs Hbs.
  - assert (bs = 0) by lia. subst bs. exists []. simpl.
    repeat split; [constructor | contradiction |].
    rewrite Z.bits_0. discriminate.
  - destruct bs as [| p | p]; [| | lia].
    + exists []. simpl. repeat split; [constructor | contradiction |].
      rewrite Z.bits_0. discriminate.
    + destruct (pos_pow2_odd p) as [k [m [Hk [Hm Hp]]]].
      assert (Hpow : 0 < 2 ^ k) by (apply Z.pow_pos_nonneg; lia).
      cbn [bitset_iter Z.eqb].
      fold (lowbit (Zpos p)). rewrite Hp, lowbit_pow2_odd, lxor_lowbit by assumption.
      destruct (IH (2 ^ (k + 1) * m)) as [out [Hrun [Hsorted Hbits]]].
      { rewrite Z.pow_add_r in * by lia. nia. }
      rewrite Hrun.
      assert (Hlen : bit_length (2 ^ k) - 1 = k).
      { unfold bit_length. destruct (Z.eqb_spec (2 ^ k) 0); [lia |].
        rewrite Z.abs_eq, Z.log2_pow2 by lia. lia. }
      rewrite Hlen. exists (k :: out). split; [reflexivity |].
      assert (Hsplit : forall j, Z.testbit (2 ^ k * (2 * m + 1)) j
                                 = xorb (Z.testbit (2 ^ (k + 1) * m) j) (k =? j)).
      { intros j. rewrite <- lxor_lowbit by assumption.
        rewrite Z.lxor_spec.
        destruct (Z_lt_le_dec j 0) as [Hj | Hj].
        - rewrite !Z.testbit_neg_r by assumption.
          destruct (Z.eqb_spec k j); [lia | reflexivity].
        - rewrite Z.pow2_bits_eqb by assumption.
          now destruct (Z.testbit _ j), (k =? j). }
      assert (Hlow : forall j, j <= k -> Z.testbit (2 ^ (k + 1) * m) j = false).
      { intros j Hj. destruct (Z_lt_le_dec j 0).
        - now apply Z.testbit_neg_r.
        - rewrite Z.mul_comm. apply Z.mul_pow2_bits_low. lia. }
      split.
      * constructor; [assumption |].
        apply Forall_forall. intros j Hin. apply Hbits in Hin.
        destruct (Z_lt_le_dec k j); [assumption |].
        rewrite Hlow in Hin by assumption. discriminate.
      * intros j. rewrite Hsplit. simpl. rewrite Hbits.
        destruct (Z.eqb_spec k j) as [<- | Hne].
        -- rewrite Hlow by lia. simpl. tauto.
        -- rewrite xorb_false_r. split; [intros [? | ?]; [contradiction | assumption] | tauto].
Qed.

(** (C8) Round trip: for a collection [S] of non-negative integers (in any
    order, repeats allowed), [bitset_from_indices S] returns a bitset [bs]
    on which the generator [bitset_iter] stops and has yielded, in strictly
    ascending order (hence without duplicates), exactly the members of [S];
    and for every bitset [bs] and index [i >= 0], [i] is in
    [bitset_add bs i] and not in [bitset_remove bs i]. *)
Theorem bitset_round_trip :
  (forall S : list Z, Forall (fun i => 0 <= i) S ->
     exists bs out,
       bitset_from_indices S = Ok bs /\
       (exists n, forall fuel, (n <= fuel)%nat -> bitset_iter fuel bs = Some out) /\
       StronglySorted Z.lt out /\
       forall j, In j out <-> In j S) /\
  (forall bs i, 0 <= i ->
     (b <- bitset_add bs i ;; bitset_contains b i) = Ok true /\
     (b <- bitset_remove bs i ;; bitset_contains b i) = Ok false).
Proof.
  split.
  - intros S HS.
    destruct (bitset_from_indices_loop_spec S HS 0 ltac:(lia))
      as [bs [Hrun [Hbs Hbits]]].
    destruct (bitset_iter_spec (Z.to_nat bs) bs ltac:(lia))
      as [out [Hiter [Hsorted Hout]]].
    exists bs, out. split; [assumption | split; [| split; [assumption |]]].
    + exists (Z.to_nat bs). intros fuel Hfuel.
      destruct (bitset_iter_spec fuel bs ltac:(lia)) as [out' [Hiter' [Hsorted' Hout']]].
      rewrite Hiter'. f_equal.
      assert (Hsame : forall j, In j out' <-> In j out)
        by (intros j; rewrite Hout, Hout'; tauto).
      clear - Hsorted Hsorted' Hsame.
      revert out Hsorted Hsame.
      induction Hsorted' as [| x xs Hxs IH Hx]; intros out Hsorted Hsame.
      * destruct out as [| y ys]; [reflexivity |].
        destruct (proj2 (Hsame y) (or_introl eq_refl)).
      * destruct out as [| y ys].
        { destruct (proj1 (Hsame x) (or_introl eq_refl)). }
        inversion Hsorted as [| ? ? Hys Hy]; subst.
        rewrite Forall_forall in Hx, Hy.
        assert (x = y).
        { destruct (proj1 (Hsame x) (or_introl eq_refl)) as [-> | Hin1]; [reflexivity |].
          destruct (proj2 (Hsame y) (or_introl eq_refl)) as [-> | Hin2]; [reflexivity |].
          specialize (Hx _ Hin2). specialize (Hy _ Hin1). lia. }
        subst y. f_equal. apply IH; [assumption |].
        intros j. split; intros Hin.
        -- destruct (proj1 (Hsame j) (or_intror Hin)) as [-> | ?]; [| assumption].
           specialize (Hx _ Hin). lia.
        -- destruct (proj2 (Hsame j) (or_intror Hin)) as [-> | ?]; [| assumption].
           specialize (Hy _ Hin). lia.
    + intros j. rewrite Hout, Hbits, Z.bits_0. intuition discriminate.
  - intros bs i Hi.
    unfold bitset_add, bitset_remove, bitset_contains, lshift, rshift.
    destruct (Z.ltb_spec i 0) as [Hlt | _]; [lia |]. simpl.
    destruct (Z.ltb_spec i 0) as [Hlt | _]; [lia |]. simpl.
    rewrite !contains_testbit by assumption.
    rewrite Z.lor_spec, Z.land_spec, Z.lnot_spec, shiftl_1_testbit by assumption.
    rewrite Z.eqb_refl. simpl. rewrite orb_true_r, andb_false_r. split; reflexivity.
Qed.

Lemma bitset_round_trip_witness :
  (exists bs out,
     bitset_from_indices [5; 0; 2; 5] = Ok bs /\
     (exists n, forall fuel, (n <= fuel)%nat -> bitset_iter fuel bs = Some out) /\
     StronglySorted Z.lt out /\
     forall j, In j out <-> In j [5; 0; 2; 5]) /\
  ((b <- bitset_add 37 3 ;; bitset_contains b 3) = Ok true /\
   (b <- bitset_remove 37 2 ;; bitset_contains b 2) = Ok false).
Proof.
  split.
  - apply (proj1 bitset_round_trip [5; 0; 2; 5]).
    repeat constructor; lia.
  - split.
    + apply (proj2 bitset_round_trip 37 3). lia.
    + apply (proj2 bitset_round_trip 37 2). lia.
Defined.

(** (C10) A negative index makes [bitset_add], [bitset_remove] and
    [bitset_contains] raise the negative-shift [ValueError], whatever the
    bitset; with an index [i >= 0] each of the three returns a value. *)
Theorem bitset_negative_index_raises :
  forall bs i,
    (i < 0 ->
       bitset_add bs i = Raise (ValueError "negative shift count") /\
       bitset_remove bs i = Raise (ValueError "negative shift count") /\
       bitset_contains bs i = Raise (ValueError "negative shift count")) /\
    (0 <= i ->
       (exists v, bitset_add bs i = Ok v) /\
       (exists v, bitset_remove bs i = Ok v) /\
       (exists v, bitset_contains bs i = Ok v)).
Proof.
  intros bs i.
  unfold bitset_add, bitset_remove, bitset_contains, lshift, rshift.
  destruct (Z.ltb_spec i 0) as [Hlt | Hge]; simpl; split; intros Hi; try lia.
  - repeat split.
  - repeat split; eexists; reflexivity.
Qed.

Lemma bitset_negative_index_raises_witness :
  (bitset_add 37 (-1) = Raise (ValueError "negative shift count") /\
   bitset_remove 37 (-1) = Raise (ValueError "negative shift count") /\
   bitset_contains 37 (-1) = Raise (ValueError "negative shift count")) /\
  ((exists v, bitset_add 37 3 = Ok v) /\
   (exists v, bitset_remove 37 3 = Ok v) /\
   (exists v, bitset_contains 37 3 = Ok v)).
Proof.
  split.
  - apply (proj1 (bitset_negative_index_raises 37 (-1))). lia.
  - apply (proj2 (bitset_negative_index_raises 37 3)). lia.
Defined.

(** ** Extended Euclid *)

(** Loop-invariant rule for the [while] loop of [egcd]: an invariant of the
    body holds of the state at exit, where the remainder is zero. *)
Lemma egcd_loop_inv (P : egcd_state -> Prop) :
  (forall st, P st -> r st <> 0 -> P (egcd_step st)) ->
  forall st, P st -> P (egcd_loop st) /\ r (egcd_loop st) = 0.
Proof.
  intros Hstep st. funelim (egcd_loop st); intros HP.
  - split; assumption.
  - apply H; [assumption |]. now apply Hstep.
Qed.

Lemma egcd_loop_exit (st : egcd_state) : r st = 0 -> egcd_loop st = st.
Proof. intros Hr. funelim (egcd_loop st); [reflexivity | contradiction]. Qed.

Lemma egcd_loop_turn (st : egcd_state) :
  r st <> 0 -> egcd_loop st = egcd_loop (egcd_step st).
Proof. intros Hr. funelim (egcd_loop st); [contradiction | reflexivity]. Qed.

Lemma egcd_step_shrinks (st : egcd_state) :
  r st <> 0 -> Z.abs (r (egcd_step st)) < Z.abs (r st).
Proof.
  intros Hr. unfold egcd_step; simpl.
  replace (old_r st - old_r st / r st * r st) with (old_r st mod r st)
    by (rewrite Z.mod_eq by assumption; ring).
  destruct (Z_lt_le_dec (r st) 0) as [Hneg | Hpos].
  - pose proof (Z.mod_neg_bound (old_r st) (r st) Hneg). lia.
  - pose proof (Z.mod_pos_bound (old_r st) (r st) ltac:(lia)). lia.
Qed.

(** The loop leaves after at most [|r|] turns, in the state reached by
    iterating the body. *)
Lemma egcd_loop_iter (bound : nat) :
  forall st, Z.abs (r st) <= Z.of_nat bound ->
    exists n, (n <= bound)%nat /\
              r (Nat.iter n egcd_step st) = 0 /\
              (forall k, (k < n)%nat -> r (Nat.iter k egcd_step st) <> 0) /\
              egcd_loop st = Nat.iter n egcd_step st.
Proof.
  induction bound as [| bound IH]; intros st Hst.
  - exists 0%nat. simpl. assert (Hr : r st = 0) by lia.
    repeat split; [lia | assumption | lia | now apply egcd_loop_exit].
  - destruct (Z.eq_dec (r st) 0) as [Hr | Hr].
    + exists 0%nat. simpl.
      repeat split; [lia | assumption | lia | now apply egcd_loop_exit].
    + pose proof (egcd_step_shrinks st Hr) as Hshrink.
      destruct (IH (egcd_step st) ltac:(lia)) as [n [Hn [Hzero [Hbefore Hloop]]]].
      exists (S n). rewrite !Nat.iter_succ_r.
      repeat split; [lia | assumption | | now rewrite egcd_loop_turn].
      intros [| k] Hk; [exact Hr |].
      rewrite Nat.iter_succ_r. apply Hbefore. lia.
Qed.

(** (C7) [egcd a b] terminates for all integers [a] and [b]: after some
    number [n <= |b|] of turns of the loop body the remainder [r] is zero
    for the first time, and [egcd] returns the values of that state. *)
Theorem egcd_terminates :
  forall a b,
    exists n, (n <= Z.abs_nat b)%nat /\
              r (Nat.iter n egcd_step (egcd_init a b)) = 0 /\
              (forall k, (k < n)%nat ->
                         r (Nat.iter k egcd_step (egcd_init a b)) <> 0) /\
              egcd a b = egcd_result (Nat.iter n egcd_step (egcd_init a b)).
Proof.
  intros a b.
  destruct (egcd_loop_iter (Z.abs_nat b) (egcd_init a b)) as [n [Hn [Hz [Hb Hl]]]].
  - simpl. lia.
  - exists n. unfold egcd. rewrite Hl. repeat split; assumption.
Qed.

Lemma egcd_inv_step (a b : Z) (st : egcd_state) :
  egcd_inv a b st -> r st <> 0 -> egcd_inv a b (egcd_step st).
Proof.
  intros [Hold [Hcur Hgcd]] _. unfold egcd_inv, egcd_step; simpl.
  repeat split.
  - assumption.
  - rewrite <- Hold, <- Hcur. ring.
  - rewrite <- Hgcd.
    replace (old_r st - old_r st / r st * r st)
      with (old_r st + (- (old_r st / r st)) * r st) by ring.
    rewrite Z.gcd_add_mult_diag_r. apply Z.gcd_comm.
Qed.

Lemma egcd_bezout (a b : Z) :
  let '(g, x, y) := egcd a b in
  a * x + b * y = g /\ Z.abs g = Z.gcd a b.
Proof.
  unfold egcd, egcd_result.
  destruct (egcd_loop_inv (egcd_inv a b) (egcd_inv_step a b) (egcd_init a b))
    as [[Hold [_ Hgcd]] Hr].
  - unfold egcd_inv; simpl. repeat split; ring.
  - split; [assumption |]. rewrite Hr, Z.gcd_0_r in Hgcd. assumption.
Qed.

Lemma egcd_nonneg_step (st : egcd_state) :
  egcd_nonneg st -> r st <> 0 -> egcd_nonneg (egcd_step st).
Proof.
  intros [Hr _] Hne. unfold egcd_nonneg, egcd_step; simpl.
  replace (old_r st - old_r st / r st * r st) with (old_r st mod r st)
    by (rewrite Z.mod_eq by assumption; ring).
  pose proof (Z.mod_pos_bound (old_r st) (r st) ltac:(lia)). lia.
Qed.

Lemma egcd_nonpos_step (st : egcd_state) :
  egcd_nonpos st -> r st <> 0 -> egcd_nonpos (egcd_step st).
Proof.
  intros [Hr _] Hne. unfold egcd_nonpos, egcd_step; simpl.
  replace (old_r st - old_r st / r st * r st) with (old_r st mod r st)
    by (rewrite Z.mod_eq by assumption; ring).
  pose proof (Z.mod_neg_bound (old_r st) (r st) ltac:(lia)). lia.
Qed.

Lemma egcd_g_nonneg (a b : Z) :
  0 < b \/ (b = 0 /\ 0 <= a) -> 0 <= fst (fst (egcd a b)).
Proof.
  intros Hab. unfold egcd, egcd_result; simpl.
  destruct (egcd_loop_inv egcd_nonneg egcd_nonneg_step (egcd_init a b))
    as [[_ Hold] Hr].
  - unfold egcd_nonneg; simpl. lia.
  - auto.
Qed.

Lemma egcd_g_neg (a b : Z) :
  b < 0 \/ (b = 0 /\ a < 0) -> fst (fst (egcd a b)) < 0.
Proof.
  intros Hab.
  pose proof (egcd_bezout a b) as Hbez.
  unfold egcd, egcd_result in *; simpl in *.
  destruct (egcd_loop_inv egcd_nonpos egcd_nonpos_step (egcd_init a b))
    as [[_ Hold] Hr].
  - unfold egcd_nonpos; simpl. lia.
  - destruct Hbez as [_ Habs]. specialize (Hold Hr).
    assert (Z.gcd a b <> 0).
    { intros H0. apply Z.gcd_eq_0 in H0. lia. }
    lia.
Qed.

(** Sign of the first component [g] of [egcd a b]: it follows the second
    argument.  [g >= 0] when [b > 0], or [b = 0] and [a >= 0]; [g < 0] when
    [b < 0], or [b = 0] and [a < 0]. *)
Lemma egcd_g_sign :
  forall a b,
    (0 < b \/ (b = 0 /\ 0 <= a) -> 0 <= fst (fst (egcd a b))) /\
    (b < 0 \/ (b = 0 /\ a < 0) -> fst (fst (egcd a b)) < 0).
Proof.
  intros a b. split; [apply egcd_g_nonneg | apply egcd_g_neg].
Qed.

(** (C2, failing input) [egcd 0 (-5)] returns [(-5, 0, 1)]: its first
    component is negative, and is not the greatest common divisor 5 of the
    arguments; so [g >= 0] does not hold for all integer inputs. *)
Theorem egcd_0_neg5_negative :
  egcd 0 (-5) = (-5, 0, 1) /\
  Z.gcd 0 (-5) = 5 /\
  ~ (forall a b, 0 <= fst (fst (egcd a b))).
Proof.
  split; [vm_compute; reflexivity |]. split; [reflexivity |].
  intros H. specialize (H 0 (-5)). vm_compute in H. apply H. reflexivity.
Qed.

(** (C4) For non-negative [a] and [b], not both zero, [egcd a b] returns
    [(g, x, y)] with [a * x + b * y = g] and [g] the greatest common
    divisor of [a] and [b]. *)
Theorem egcd_bezout_gcd :
  forall a b, 0 <= a -> 0 <= b -> ~ (a = 0 /\ b = 0) ->
    exists g x y, egcd a b = (g, x, y) /\ a * x + b * y = g /\ g = Z.gcd a b.
Proof.
  intros a b Ha Hb _.
  pose proof (egcd_bezout a b) as Hbez.
  pose proof (egcd_g_nonneg a b ltac:(lia)) as Hg.
  destruct (egcd a b) as [[g x] y]. simpl in Hg.
  exists g, x, y. destruct Hbez as [Hlin Habs].
  repeat split; [assumption | lia].
Qed.

Lemma egcd_bezout_gcd_witness :
  exists g x y, egcd 240 46 = (g, x, y) /\ 240 * x + 46 * y = g /\ g = Z.gcd 240 46.
Proof.
  apply (egcd_bezout_gcd 240 46); lia.
Defined.

(** (C5) For a modulus [m > 1], [modinv a m] raises "inverse does not
    exist" exactly when [gcd a m <> 1]; when [gcd a m = 1] it returns an
    [x] with [0 <= x < m] and [(a * x) mod m = 1]. *)
Theorem modinv_spec :
  forall a m, 1 < m ->
    (modinv a m = Raise (ValueError "inverse does not exist") <-> Z.gcd a m <> 1) /\
    (Z.gcd a m = 1 ->
       exists x, modinv a m = Ok x /\ 0 <= x < m /\ (a * x) mod m = 1).
Proof.
  intros a m Hm.
  unfold modinv, pymod.
  destruct (Z.eqb_spec m 0) as [Hm0 | _]; [lia |]. cbn [bind].
  pose proof (egcd_bezout (a mod m) m) as Hbez.
  pose proof (egcd_g_nonneg (a mod m) m ltac:(lia)) as Hg.
  destruct (egcd (a mod m) m) as [[g x] y]. simpl in Hg.
  destruct Hbez as [Hlin Habs].
  rewrite Z.gcd_mod, Z.gcd_comm in Habs by lia.
  assert (Hgcd : g = Z.gcd a m) by lia. clear Habs Hg.
  destruct (Z.eqb_spec g 1) as [Hg1 | Hg1]; simpl.
  - split.
    + split; [intros H; discriminate H | intros Hne; congruence].
    + intros _. exists (x mod m). split; [reflexivity |].
      split; [apply Z.mod_pos_bound; lia |].
      rewrite Z.mul_mod_idemp_r, <- Z.mul_mod_idemp_l by lia.
      replace (a mod m * x) with (1 + (- y) * m) by lia.
      rewrite Z.mod_add by lia. apply Z.mod_small. lia.
  - split.
    + split; [intros _; congruence | reflexivity].
    + intros H1. congruence.
Qed.

Lemma modinv_spec_witness :
  (modinv 3 11 = Raise (ValueError "inverse does not exist") <-> Z.gcd 3 11 <> 1) /\
  (exists x, modinv 3 11 = Ok x /\ 0 <= x < 11 /\ (3 * x) mod 11 = 1).
Proof.
  destruct (modinv_spec 3 11 ltac:(lia)) as [Hraise Hret].
  split; [exact Hraise | apply Hret; reflexivity].
Defined.

(** ** Miller-Rabin *)

Lemma pow3_pos_spec (b m : Z) (e : positive) :
  m <> 0 -> pow3_pos b e m = (b ^ Zpos e) mod m.
Proof.
  intros Hm. induction e as [e IH | e IH |]; simpl pow3_pos.
  - rewrite IH, Pos2Z.inj_xI.
    replace (2 * Zpos e + 1) with (Zpos e + Zpos e + 1) by ring.
    rewrite !Z.pow_add_r, Z.pow_1_r by lia.
    rewrite <- Z.mul_mod_idemp_l by assumption.
    rewrite <- Z.mul_mod by assumption.
    rewrite Z.mul_mod_idemp_l by assumption. reflexivity.
  - rewrite IH, Pos2Z.inj_xO.
    replace (2 * Zpos e) with (Zpos e + Zpos e) by ring.
    rewrite Z.pow_add_r by lia.
    rewrite <- Z.mul_mod by assumption. reflexivity.
  - rewrite Z.pow_1_r. reflexivity.
Qed.

(** On the domain where it is used, [pow3] is the built-in modular power. *)
Lemma pow3_spec (b e m : Z) :
  0 <= e -> m <> 0 -> pow3 b e m = (b ^ e) mod m.
Proof.
  intros He Hm. destruct e as [| p | p]; simpl.
  - reflexivity.
  - now apply pow3_pos_spec.
  - lia.
Qed.

(** [_decompose n] writes [n - 1] as [d * 2^s] with [d] odd. *)
Lemma _decompose_loop_spec (p : positive) :
  forall s0, let '(d, s) := _decompose_loop p Zpos s0 in
             s0 <= s /\ Zpos p = d * 2 ^ (s - s0) /\ Z.odd d = true.
Proof.
  induction p as [p _ | p IH |]; intros s0; cbn [_decompose_loop].
  - rewrite Z.sub_diag. repeat split; lia.
  - specialize (IH (s0 + 1)).
    destruct (_decompose_loop p Zpos (s0 + 1)) as [d s].
    destruct IH as [Hs [Hp Hd]]. repeat split; [lia | | assumption].
    replace (s - s0) with (s - (s0 + 1) + 1) by lia.
    rewrite Z.pow_add_r by lia. change (Zpos p~0) with (2 * Zpos p). rewrite Hp. ring.
  - rewrite Z.sub_diag. repeat split; lia.
Qed.

Lemma _decompose_spec (n : Z) :
  2 <= n ->
  exists d s, _decompose n = Some (d, s) /\
              0 <= s /\ n - 1 = d * 2 ^ s /\ Z.odd d = true.
Proof.
  intros Hn. unfold _decompose.
  destruct (n - 1) as [| p | p] eqn:Hn1; try lia.
  pose proof (_decompose_loop_spec p 0) as H.
  destruct (_decompose_loop p Zpos 0) as [d s].
  exists d, s. rewrite Z.sub_0_r in H. intuition.
Qed.

(** The test always returns. *)
Lemma is_probable_prime_returns (randrange : nat -> Z -> Z -> Z) (n rounds : Z) :
  exists v, is_probable_prime randrange n rounds = Some v.
Proof.
  unfold is_probable_prime.
  destruct (Z.ltb_spec n 2) as [Hlt | Hge]; [now eexists |].
  destruct (trial_division n small); [now eexists |].
  destruct (_decompose_spec n Hge) as [d [s [Hdec _]]].
  rewrite Hdec. now eexists.
Qed.

(** Below [2^64] neither the random source nor [rounds] is consulted. *)
Lemma is_probable_prime_deterministic
      (rr1 rr2 : nat -> Z -> Z -> Z) (rounds1 rounds2 n : Z) :
  n < 2 ^ 64 ->
  is_probable_prime rr1 n rounds1 = is_probable_prime rr2 n rounds2.
Proof.
  intros Hn. unfold is_probable_prime.
  destruct (n <? 2); [reflexivity |].
  destruct (trial_division n small); [reflexivity |].
  destruct (_decompose n) as [[d s] |]; [| reflexivity].
  change (Z.shiftl 1 64) with (2 ^ 64).
  destruct (Z.ltb_spec n (2 ^ 64)); [reflexivity | lia].
Qed.

(** (C6) The fixed test cases: [2^61 - 1] (the Mersenne prime M61) and [2]
    are reported prime, [341 = 11 * 31] and [1] are reported composite,
    whatever the random source and the number of rounds. *)
Theorem is_probable_prime_fixed_cases :
  forall (randrange : nat -> Z -> Z -> Z) (rounds : Z),
    is_probable_prime randrange (2 ^ 61 - 1) rounds = Some true /\
    is_probable_prime randrange 341 rounds = Some false /\
    is_probable_prime randrange 1 rounds = Some false /\
    is_probable_prime randrange 2 rounds = Some true.
Proof.
  intros randrange rounds.
  split; [vm_compute; reflexivity |].
  split; [vm_compute; reflexivity |].
  split; vm_compute; reflexivity.
Qed.

(** Ground truth for the three small cases. *)
Lemma fixed_cases_ground_truth :
  ~ Z.prime 341 /\ ~ Z.prime 1 /\ Z.prime 2.
Proof.
  split; [| split; [exact Z.not_prime_1 | exact Z.prime_2]].
  intros [_ Hp]. apply (Hp 11); [lia |]. exists 31. reflexivity.
Qed.

(** (C3, failing input) [341550071728321 = 10670053 * 32010157] is below
    [2^64] and composite, yet it passes trial division and all seven fixed
    bases: [is_probable_prime] reports it prime. *)
Theorem is_probable_prime_strong_pseudoprime :
  forall (randrange : nat -> Z -> Z -> Z) (rounds : Z),
    341550071728321 < 2 ^ 64 /\
    341550071728321 = 10670053 * 32010157 /\
    ~ Z.prime 341550071728321 /\
    is_probable_prime randrange 341550071728321 rounds = Some true.
Proof.
  intros randrange rounds.
  split; [reflexivity |]. split; [reflexivity |]. split.
  - intros [_ Hp]. apply (Hp 10670053); [lia |].
    exists 32010157. reflexivity.
  - vm_compute. reflexivity.
Qed.

(** ** Sieve *)

Lemma range_bounds (start stop step i : Z) :
  0 < step -> In i (range start stop step) -> start <= i < stop.
Proof.
  intros Hstep Hin. unfold range in Hin.
  apply in_map_iff in Hin. destruct Hin as [k [<- Hk]].
  apply in_seq in Hk.
  set (c := (stop - start + step - 1) / step) in *.
  assert (Hc : step * c <= stop - start + step - 1)
    by (apply Z.mul_div_le; assumption).
  nia.
Qed.

(** Apart from 2, the sieve only ever returns numbers below [limit]: the
    bitset has [limit // 2] positions, and position [i] stands for
    [2 * i + 1]. *)
Lemma sieve_below_limit (limit x : Z) :
  In x (sieve limit) -> x = 2 \/ x < limit.
Proof.
  unfold sieve. destruct (limit <? 2); [contradiction |].
  intros [<- | Hin]; [now left | right].
  apply in_map_iff in Hin. destruct Hin as [i [<- Hi]].
  apply filter_In in Hi. destruct Hi as [Hi _].
  apply range_bounds in Hi; [| lia].
  pose proof (Z.mul_div_le limit 2 ltac:(lia)). lia.
Qed.

(** An odd prime [limit] is never in [sieve limit]. *)
Lemma sieve_omits_limit (limit : Z) :
  3 <= limit -> ~ In limit (sieve limit).
Proof.
  intros Hl Hin. apply sieve_below_limit in Hin. lia.
Qed.

(** (C1, failing input) 3 is a prime not above the limit 3, but
    [sieve 3] is [[2]]: the prime limit itself is left out. *)
Theorem sieve_3_misses_3 :
  Z.prime 3 /\ 3 <= 3 /\ sieve 3 = [2] /\ ~ In 3 (sieve 3).
Proof.
  split; [exact Z.prime_3 |]. split; [lia |]. split; [reflexivity |].
  apply sieve_omits_limit. lia.
Qed.

(** *** What the sieve does return

    The marking is right; only the size of the bitset is short by one
    position when [limit] is odd. *)

Lemma range_In (start stop step j : Z) :
  0 < step ->
  In j (range start stop step) <->
  exists k, 0 <= k /\ j = start + step * k /\ j < stop.
Proof.
  intros Hstep. split.
  - intros Hin. pose proof (range_bounds _ _ _ _ Hstep Hin) as Hb.
    unfold range in Hin. apply in_map_iff in Hin.
    destruct Hin as [k [<- _]]. exists (Z.of_nat k). lia.
  - intros [k [Hk [-> Hlt]]]. unfold range. apply in_map_iff.
    exists (Z.to_nat k). rewrite Z2Nat.id by assumption.
    split; [reflexivity |]. apply in_seq. split; [lia |]. simpl.
    apply Z2Nat.inj_lt; [assumption | |].
    + apply Z.div_pos; lia.
    + assert (Hq : k + 1 <= (stop - start + step - 1) / step)
        by (apply Z.div_le_lower_bound; [assumption | lia]).
      lia.
Qed.

Lemma unset_testbit (c i : Z) :
  0 <= i -> (Z.land (Z.shiftr c i) 1 =? 0) = negb (Z.testbit c i).
Proof.
  intros Hi.
  change 1 with (Z.ones 1). rewrite Z.land_ones by lia.
  rewrite Z.pow_1_r, <- Z.bit0_mod, Z.shiftr_spec by lia.
  rewrite Z.add_0_l. now destruct (Z.testbit c i).
Qed.

Lemma fold_mark_testbit (l : list Z) :
  Forall (fun j => 0 <= j) l ->
  forall c j,
    Z.testbit (fold_left (fun c j => Z.lor c (Z.shiftl 1 j)) l c) j = true <->
    Z.testbit c j = true \/ In j l.
Proof.
  induction 1 as [| i rest Hi _ IH]; intros c j; simpl.
  - tauto.
  - rewrite IH, Z.lor_spec, orb_true_iff, shiftl_1_testbit, Z.eqb_eq by assumption.
    tauto.
Qed.

Lemma sieve_mark_testbit (c start size step j : Z) :
  0 <= start -> 0 < step ->
  Z.testbit (sieve_mark c start size step) j = true <->
  Z.testbit c j = true \/
  exists k, 0 <= k /\ j = start + step * k /\ j < size.
Proof.
  intros Hstart Hstep. unfold sieve_mark.
  rewrite fold_mark_testbit, range_In by
    (assumption ||
     (apply Forall_forall; intros x Hx; apply range_bounds in Hx; lia)).
  reflexivity.
Qed.

(** Position [i*i // 2 + i*k] of the bitset stands for [i * (i + 2k)]. *)
Lemma marked_value (i k : Z) :
  Z.odd i = true -> 2 * ((i * i) / 2 + i * k) + 1 = i * (i + 2 * k).
Proof.
  intros Hodd. apply Z.odd_spec in Hodd. destruct Hodd as [u ->].
  replace ((2 * u + 1) * (2 * u + 1)) with (1 + (2 * u * u + 2 * u) * 2) by ring.
  rewrite Z.div_add, Z.div_small by lia. ring.
Qed.

Lemma half_square_nonneg (i : Z) : 0 <= (i * i) / 2.
Proof. apply Z.div_pos; nia. Qed.

Lemma sieve_visit_sound (size c i : Z) :
  odd_from_3 i -> marks_sound size c -> marks_sound size (sieve_visit size c i).
Proof.
  intros [Hi Hodd] Hc. unfold sieve_visit.
  destruct (Z.land (Z.shiftr c (i / 2)) 1 =? 0); [| assumption].
  intros j Hj.
  apply sieve_mark_testbit in Hj; [| apply half_square_nonneg | lia].
  destruct Hj as [Hj | [k [Hk [Hjk Hlt]]]].
  - now apply Hc.
  - exists i, k. repeat split; assumption.
Qed.

Lemma sieve_visit_keeps (size c i j : Z) :
  odd_from_3 i ->
  Z.testbit c j = true -> Z.testbit (sieve_visit size c i) j = true.
Proof.
  intros [Hi _] Hj. unfold sieve_visit.
  destruct (Z.land (Z.shiftr c (i / 2)) 1 =? 0); [| assumption].
  apply sieve_mark_testbit; [apply half_square_nonneg | lia | now left].
Qed.

Lemma sieve_loop_sound (size : Z) (l : list Z) :
  Forall odd_from_3 l ->
  forall c, marks_sound size c -> marks_sound size (fold_left (sieve_visit size) l c).
Proof.
  induction 1 as [| i rest Hi _ IH]; intros c Hc; simpl; [assumption |].
  apply IH. now apply sieve_visit_sound.
Qed.

Lemma sieve_loop_keeps (size j : Z) (l : list Z) :
  Forall odd_from_3 l ->
  forall c, Z.testbit c j = true ->
            Z.testbit (fold_left (sieve_visit size) l c) j = true.
Proof.
  induction 1 as [| i rest Hi _ IH]; intros c Hc; simpl; [assumption |].
  apply IH. now apply sieve_visit_keeps.
Qed.

(** A marked position never stands for a prime. *)
Lemma marks_sound_not_prime (size c j : Z) :
  marks_sound size c -> Z.testbit c j = true -> ~ Z.prime (2 * j + 1).
Proof.
  intros Hc Hj [_ Hp].
  destruct (Hc j Hj) as [i [k [Hi [Hodd [Hk [Hjk _]]]]]].
  apply (Hp i).
  - rewrite Hjk, marked_value by assumption. nia.
  - rewrite Hjk, marked_value by assumption. exists (i + 2 * k). ring.
Qed.

(** When the loop has visited a prime [p], every odd multiple of [p] from
    [p * p] on that has a position in the bitset is marked. *)
Lemma sieve_loop_complete (size : Z) (l : list Z) :
  Forall odd_from_3 l ->
  forall c, marks_sound size c ->
    forall p k, In p l -> Z.prime p -> 0 <= k ->
      (p * p) / 2 + p * k < size ->
      Z.testbit (fold_left (sieve_visit size) l c) ((p * p) / 2 + p * k) = true.
Proof.
  induction 1 as [| i rest Hi Hrest IH]; intros c Hc p k Hin Hp Hk Hlt;
    [contradiction |].
  simpl. destruct Hin as [-> | Hin].
  - apply sieve_loop_keeps; [assumption |].
    destruct Hi as [Hp3 Hodd]. unfold sieve_visit.
    assert (Hidx : 2 * (p / 2) + 1 = p).
    { apply Z.odd_spec in Hodd. destruct Hodd as [u ->].
      replace (2 * u + 1) with (1 + u * 2) by ring.
      rewrite Z.div_add, Z.div_small by lia. ring. }
    rewrite unset_testbit by (apply Z.div_pos; lia).
    destruct (Z.testbit c (p / 2)) eqn:Hbit; simpl.
    + exfalso. apply (marks_sound_not_prime size c (p / 2) Hc Hbit).
      rewrite Hidx. assumption.
    + apply sieve_mark_testbit; [apply half_square_nonneg | lia |].
      right. exists k. repeat split; assumption.
  - apply IH; try assumption. now apply sieve_visit_sound.
Qed.

(** The least divisor above 1. *)
Lemma least_divisor (n : Z) :
  1 < n ->
  exists d, 1 < d <= n /\ (d | n) /\ forall e, 1 < e < d -> ~ (e | n).
Proof.
  intros Hn.
  assert (Hsearch : forall b, 0 <= b ->
            (forall e, 1 < e < b -> ~ (e | n)) \/
            exists d, 1 < d < b /\ (d | n) /\ forall e, 1 < e < d -> ~ (e | n)).
  { apply natlike_ind.
    - left. intros e He. lia.
    - intros b Hb [Hnone | [d [Hd [Hdiv Hmin]]]].
      + destruct (Z_lt_le_dec 1 b) as [Hb1 | Hb1].
        * destruct (Z.eq_dec (n mod b) 0) as [Hmod | Hmod].
          -- right. exists b. split; [lia |]. split; [| assumption].
             apply Z.mod_divide; [lia | assumption].
          -- left. intros e He Hdiv.
             destruct (Z.eq_dec e b) as [-> | Hne].
             ++ apply Hmod. apply Z.mod_divide; [lia | assumption].
             ++ apply (Hnone e); [lia | assumption].
        * left. intros e He. lia.
      + right. exists d. split; [lia |]. split; assumption. }
  destruct (Hsearch (n + 1) ltac:(lia)) as [Hnone | [d [Hd [Hdiv Hmin]]]].
  - exfalso. apply (Hnone n); [lia | apply Z.divide_refl].
  - exists d. split; [lia |]. split; assumption.
Qed.

(** An odd number from 3 on is prime, or it is [p * (p + 2k)] for its least
    prime factor [p], which is odd. *)
Lemma odd_prime_or_factor (n : Z) :
  3 <= n -> Z.odd n = true ->
  Z.prime n \/
  exists p k, Z.prime p /\ 3 <= p /\ Z.odd p = true /\ 0 <= k /\
              n = p * (p + 2 * k).
Proof.
  intros Hn Hodd.
  destruct (least_divisor n ltac:(lia)) as [d [Hd [[m Hm] Hmin]]].
  destruct (Z.eq_dec d n) as [-> | Hne].
  - left. split; [lia | exact Hmin].
  - right.
    assert (Hdp : Z.prime d).
    { split; [lia |]. intros e He He'. apply (Hmin e); [lia |].
      apply Z.divide_trans with d; [assumption | now exists m]. }
    assert (Hm1 : 1 < m) by nia.
    assert (Hmd : d <= m).
    { destruct (Z_le_gt_dec d m); [assumption | exfalso].
      apply (Hmin m); [lia |]. exists d. lia. }
    rewrite Hm, Z.odd_mul in Hodd. apply andb_true_iff in Hodd.
    destruct Hodd as [Hom Hod].
    pose proof Hom as Hom'. pose proof Hod as Hod'.
    apply Z.odd_spec in Hom'. destruct Hom' as [u Hu].
    apply Z.odd_spec in Hod'. destruct Hod' as [v Hv].
    exists d, (u - v).
    split; [assumption |]. split; [lia |]. split; [assumption |].
    split; [lia |].
    rewrite Hm. replace (d + 2 * (u - v)) with m by lia. ring.
Qed.

Lemma range_odd_from_3 (stop : Z) : Forall odd_from_3 (range 3 stop 2).
Proof.
  apply Forall_forall. intros i Hi.
  apply range_In in Hi; [| lia]. destruct Hi as [k [Hk [-> _]]].
  split; [lia |]. apply Z.odd_spec. exists (k + 1). ring.
Qed.

Lemma marks_sound_0 (size : Z) : marks_sound size 0.
Proof. intros j Hj. rewrite Z.bits_0 in Hj. discriminate. Qed.

(** After the marking, an unmarked position stands for a prime and a
    marked one for a composite. *)
Lemma sieve_composite_spec (limit j : Z) :
  2 <= limit -> 1 <= j < limit / 2 ->
  Z.testbit (sieve_composite (limit / 2) (Z.sqrt limit)) j = false <->
  Z.prime (2 * j + 1).
Proof.
  intros Hlimit Hj. unfold sieve_composite.
  pose proof (range_odd_from_3 (Z.sqrt limit + 1)) as Hodd.
  pose proof (Z.mul_div_le limit 2 ltac:(lia)) as Hsize.
  split.
  - intros Hbit.
    destruct (odd_prime_or_factor (2 * j + 1)) as [Hp | [p [k Hpk]]];
      [lia | apply Z.odd_spec; now exists j | assumption | exfalso].
    destruct Hpk as [Hp [Hp3 [Hpodd [Hk Heq]]]].
    assert (Hjk : j = (p * p) / 2 + p * k)
      by (pose proof (marked_value p k Hpodd); lia).
    rewrite Hjk in Hbit.
    rewrite sieve_loop_complete in Hbit;
      try assumption; try discriminate; try lia.
    + apply marks_sound_0.
    + apply range_In; [lia |].
      apply Z.odd_spec in Hpodd. destruct Hpodd as [u Hu].
      exists (u - 1). split; [lia |]. split; [lia |].
      assert (p <= Z.sqrt limit); [| lia].
      apply Z.sqrt_le_square; nia.
  - intros Hp.
    destruct (Z.testbit _ j) eqn:Hbit; [exfalso | reflexivity].
    refine (marks_sound_not_prime (limit / 2) _ j _ Hbit Hp).
    apply sieve_loop_sound; [assumption | apply marks_sound_0].
Qed.

Lemma range_sorted (start stop step : Z) :
  0 < step -> StronglySorted Z.lt (range start stop step).
Proof.
  intros Hstep. unfold range.
  generalize (Z.to_nat ((stop - start + step - 1) / step)) as len.
  generalize 0%nat as a.
  intros a len. revert a.
  induction len as [| len IH]; intros a; simpl; constructor.
  - apply IH.
  - apply Forall_forall. intros x Hx.
    apply in_map_iff in Hx. destruct Hx as [k [<- Hk]].
    apply in_seq in Hk. nia.
Qed.

Lemma map_filter_sorted (f : Z -> Z) (g : Z -> bool) (l : list Z) :
  (forall x y, x < y -> f x < f y) ->
  StronglySorted Z.lt l -> StronglySorted Z.lt (map f (filter g l)).
Proof.
  intros Hf. induction 1 as [| x xs Hxs IH Hx]; simpl; [constructor |].
  destruct (g x); simpl; [| assumption].
  constructor; [assumption |].
  apply Forall_forall. intros y Hy.
  apply in_map_iff in Hy. destruct Hy as [z [<- Hz]].
  apply filter_In in Hz. rewrite Forall_forall in Hx.
  apply Hf, Hx, Hz.
Qed.

(** [sieve limit] is, in ascending order, exactly the primes up to
    [2 * (limit // 2)]: all primes up to [limit] when [limit] is even, and
    all primes below [limit] when it is odd. *)
Lemma sieve_spec (limit : Z) :
  2 <= limit ->
  StronglySorted Z.lt (sieve limit) /\
  forall x, In x (sieve limit) <-> Z.prime x /\ x <= 2 * (limit / 2).
Proof.
  intros Hlimit. unfold sieve.
  destruct (Z.ltb_spec limit 2) as [Hlt | _]; [lia |].
  pose proof (Z.mul_div_le limit 2 ltac:(lia)) as Hsize.
  assert (Hsize1 : 1 <= limit / 2) by (apply Z.div_le_lower_bound; lia).
  split.
  - constructor.
    + apply map_filter_sorted; [intros; lia | apply range_sorted; lia].
    + apply Forall_forall. intros x Hx.
      apply in_map_iff in Hx. destruct Hx as [i [<- Hi]].
      apply filter_In in Hi. destruct Hi as [Hi _].
      apply range_bounds in Hi; lia.
  - intros x. cbn [In]. rewrite in_map_iff. split.
    + intros [<- | [i [<- Hi]]]; [split; [exact Z.prime_2 | lia] |].
      apply filter_In in Hi. destruct Hi as [Hi Hcond].
      apply range_bounds in Hi; [| lia].
      apply andb_true_iff in Hcond. destruct Hcond as [Hbit _].
      rewrite unset_testbit, negb_true_iff in Hbit by lia.
      split; [| lia]. apply (sieve_composite_spec limit i); [| | assumption]; lia.
    + intros [Hp Hx].
      destruct (Z.eq_dec x 2) as [-> | Hne]; [now left | right].
      pose proof (Z.prime_ge_2 x Hp) as Hx2.
      assert (Hodd : Z.odd x = true).
      { destruct (Z.odd x) eqn:Ho; [reflexivity | exfalso].
        rewrite <- Z.negb_even, negb_false_iff in Ho.
        apply Z.even_spec in Ho. destruct Ho as [u Hu].
        destruct Hp as [_ Hp]. apply (Hp 2); [lia |]. exists u. lia. }
      apply Z.odd_spec in Hodd. destruct Hodd as [i Hi].
      exists i. split; [lia |]. apply filter_In. split.
      * apply range_In; [lia |]. exists (i - 1). lia.
      * rewrite unset_testbit by lia. apply andb_true_iff. split.
        -- rewrite negb_true_iff.
           apply (sieve_composite_spec limit i); [| | rewrite <- Hi]; try assumption; lia.
        -- apply Z.leb_le. lia.
Qed.

(** * Further properties of the code *)

(** ** Bit hacks *)

Lemma lowbit_opp (x : Z) : lowbit (- x) = lowbit x.
Proof. unfold lowbit. rewrite Z.opp_involutive. apply Z.land_comm. Qed.

(** Every non-zero integer is a power of two times an odd integer. *)
Lemma nonzero_pow2_odd (x : Z) :
  x <> 0 -> exists k m, 0 <= k /\ x = 2 ^ k * (2 * m + 1).
Proof.
  intros Hx. destruct x as [| p | p]; [contradiction | |].
  - destruct (pos_pow2_odd p) as [k [m [Hk [_ Hp]]]]. now exists k, m.
  - destruct (pos_pow2_odd p) as [k [m [Hk [_ Hp]]]].
    exists k, (- m - 1). split; [assumption |].
    change (Zneg p) with (- Zpos p). rewrite Hp. ring.
Qed.

(** (X1) [lowbit] also works on negative numbers: for every [x <> 0],
    [lowbit (-x) = lowbit x], and [lowbit x] is the power of two [2^k]
    with [2^k | x] and [2^(k+1)] not dividing [x]. *)
Theorem lowbit_nonzero :
  forall x, x <> 0 ->
    lowbit (- x) = lowbit x /\
    exists k, 0 <= k /\ lowbit x = 2 ^ k /\ (2 ^ k | x) /\ ~ (2 ^ (k + 1) | x).
Proof.
  intros x Hx. split; [apply lowbit_opp |].
  destruct (nonzero_pow2_odd x Hx) as [k [m [Hk ->]]].
  exists k. split; [assumption |].
  split; [now apply lowbit_pow2_odd |].
  split; [exists (2 * m + 1); ring |].
  intros [c Hc]. rewrite Z.pow_add_r in Hc by lia.
  assert (Hpos : 0 < 2 ^ k) by (apply Z.pow_pos_nonneg; lia).
  assert (Heq : 2 * m + 1 = 2 * c) by nia.
  lia.
Qed.

Lemma lowbit_nonzero_witness :
  lowbit (- (-52)) = lowbit (-52) /\
  exists k, 0 <= k /\ lowbit (-52) = 2 ^ k /\ (2 ^ k | -52) /\ ~ (2 ^ (k + 1) | -52).
Proof.
  apply (lowbit_nonzero (-52)). lia.
Defined.

(** (X2) [msb_index x] raises "x must be positive" for [x <= 0]; for
    [x > 0] it returns the [k] with [2^k <= x < 2^(k+1)]. *)
Theorem msb_index_spec :
  forall x,
    (x <= 0 -> msb_index x = Raise (ValueError "x must be positive")) /\
    (0 < x -> exists k, msb_index x = Ok k /\ 0 <= k /\ 2 ^ k <= x < 2 ^ (k + 1)).
Proof.
  intros x. unfold msb_index.
  destruct (Z.leb_spec x 0) as [Hle | Hgt]; split; intros Hx; try lia.
  - reflexivity.
  - exists (Z.log2 x). unfold bit_length.
    destruct (Z.eqb_spec x 0) as [H0 | _]; [lia |].
    rewrite Z.abs_eq by lia.
    split; [f_equal; lia |]. split; [apply Z.log2_nonneg |].
    apply Z.log2_spec. assumption.
Qed.

Lemma msb_index_spec_witness :
  msb_index (-3) = Raise (ValueError "x must be positive") /\
  exists k, msb_index 1024 = Ok k /\ 0 <= k /\ 2 ^ k <= 1024 < 2 ^ (k + 1).
Proof.
  split.
  - apply (proj1 (msb_index_spec (-3))). lia.
  - apply (proj2 (msb_index_spec 1024)). lia.
Defined.

(** (X3) [mask_low nbits] never raises, for negative [nbits] either: it
    returns [2^nbits - 1] when [nbits > 0] and 0 otherwise, a value whose
    bit [i] is set exactly for [0 <= i < nbits]. *)
Theorem mask_low_spec :
  forall nbits,
    exists v, mask_low nbits = Ok v /\
              (0 < nbits -> v = 2 ^ nbits - 1) /\
              (nbits <= 0 -> v = 0) /\
              forall i, 0 <= i -> Z.testbit v i = (i <? nbits).
Proof.
  intros nbits. unfold mask_low, lshift.
  destruct (Z.ltb_spec 0 nbits) as [Hpos | Hneg].
  - destruct (Z.ltb_spec nbits 0) as [Hlt | _]; [lia |]. simpl.
    exists (Z.shiftl 1 nbits - 1). split; [reflexivity |].
    split; [intros _; rewrite Z.shiftl_mul_pow2 by lia; lia |].
    split; [lia |].
    intros i Hi. rewrite Z.sub_1_r. fold (Z.ones nbits).
    destruct (Z.ltb_spec i nbits) as [Hlt | Hge].
    + apply Z.ones_spec_low. lia.
    + apply Z.ones_spec_high. lia.
  - exists 0. split; [reflexivity |]. split; [lia |]. split; [reflexivity |].
    intros i Hi. rewrite Z.bits_0.
    destruct (Z.ltb_spec i nbits); [lia | reflexivity].
Qed.

Lemma mask_low_spec_witness :
  exists v, mask_low 5 = Ok v /\
            (0 < 5 -> v = 2 ^ 5 - 1) /\
            (5 <= 0 -> v = 0) /\
            forall i, 0 <= i -> Z.testbit v i = (i <? 5).
Proof.
  exact (mask_low_spec 5).
Defined.

(** ** Bitset *)

Lemma bitset_from_indices_loop_raises (indices : list Z) :
  Exists (fun i => i < 0) indices ->
  forall acc,
    bitset_from_indices_loop indices acc
    = Raise (ValueError "indices must be non-negative").
Proof.
  induction indices as [| i rest IH]; intros Hex acc.
  - inversion Hex.
  - simpl. destruct (Z.ltb_spec i 0) as [Hlt | Hge]; [reflexivity |].
    unfold lshift. destruct (Z.ltb_spec i 0) as [Hlt | _]; [lia |]. simpl.
    apply IH. inversion Hex; subst; [lia | assumption].
Qed.

Lemma existsb_eqb_In (j : Z) (l : list Z) :
  existsb (Z.eqb j) l = true <-> In j l.
Proof.
  rewrite existsb_exists. split.
  - intros [x [Hin Heq]]. apply Z.eqb_eq in Heq. now subst.
  - intros Hin. exists j. split; [assumption | apply Z.eqb_refl].
Qed.

(** (X4) [bitset_from_indices] raises "indices must be non-negative" as
    soon as one index is negative; otherwise it returns a non-negative
    bitset that contains exactly the given indices. *)
Theorem bitset_from_indices_spec :
  forall indices,
    (Exists (fun i => i < 0) indices ->
       bitset_from_indices indices
       = Raise (ValueError "indices must be non-negative")) /\
    (Forall (fun i => 0 <= i) indices ->
       exists bs, bitset_from_indices indices = Ok bs /\ 0 <= bs /\
                  forall j, 0 <= j ->
                    bitset_contains bs j = Ok (existsb (Z.eqb j) indices)).
Proof.
  intros indices. split.
  - intros Hex. now apply bitset_from_indices_loop_raises.
  - intros Hall.
    destruct (bitset_from_indices_loop_spec indices Hall 0 ltac:(lia))
      as [bs [Hrun [Hbs Hbits]]].
    exists bs. split; [assumption | split; [assumption |]].
    intros j Hj. unfold bitset_contains, rshift.
    destruct (Z.ltb_spec j 0) as [Hlt | _]; [lia |]. simpl.
    rewrite contains_testbit by assumption. f_equal.
    apply eq_true_iff_eq. rewrite Hbits, Z.bits_0, existsb_eqb_In.
    intuition discriminate.
Qed.

Lemma bitset_from_indices_spec_witness :
  bitset_from_indices [3; -1; 4]
  = Raise (ValueError "indices must be non-negative") /\
  exists bs, bitset_from_indices [0; 2; 5] = Ok bs /\ 0 <= bs /\
             forall j, 0 <= j ->
               bitset_contains bs j = Ok (existsb (Z.eqb j) [0; 2; 5]).
Proof.
  split.
  - apply (proj1 (bitset_from_indices_spec [3; -1; 4])).
    apply Exists_cons_tl, Exists_cons_hd. lia.
  - apply (proj2 (bitset_from_indices_spec [0; 2; 5])).
    repeat constructor; lia.
Defined.

(** (X5) Adding or removing index [i] changes the membership of [i] only:
    after [bitset_add bs i] an index [j] is contained iff [j = i] or it
    was contained before; after [bitset_remove bs i] iff [j <> i] and it
    was contained before. *)
Theorem bitset_contains_after_update :
  forall bs i j, 0 <= i -> 0 <= j ->
    exists c, bitset_contains bs j = Ok c /\
      (b <- bitset_add bs i ;; bitset_contains b j) = Ok ((j =? i) || c) /\
      (b <- bitset_remove bs i ;; bitset_contains b j) = Ok (negb (j =? i) && c).
Proof.
  intros bs i j Hi Hj. exists (Z.testbit bs j).
  unfold bitset_add, bitset_remove, bitset_contains, lshift, rshift.
  destruct (Z.ltb_spec i 0) as [Hlt | _]; [lia |].
  destruct (Z.ltb_spec j 0) as [Hlt | _]; [lia |]. simpl.
  destruct (Z.ltb_spec j 0) as [Hlt | _]; [lia |]. simpl.
  rewrite !contains_testbit by assumption.
  rewrite Z.lor_spec, Z.land_spec, Z.lnot_spec, shiftl_1_testbit by assumption.
  rewrite (Z.eqb_sym j i).
  repeat split; f_equal.
  - apply orb_comm.
  - apply andb_comm.
Qed.

Lemma bitset_contains_after_update_witness :
  exists c, bitset_contains 37 2 = Ok c /\
    (b <- bitset_add 37 3 ;; bitset_contains b 2) = Ok ((2 =? 3) || c) /\
    (b <- bitset_remove 37 3 ;; bitset_contains b 2) = Ok (negb (2 =? 3) && c).
Proof.
  apply (bitset_contains_after_update 37 3 2); lia.
Defined.

Ltac bitwise :=
  apply Z.bits_inj'; intros ?n ?Hn;
  repeat (rewrite Z.land_spec || rewrite Z.lor_spec
          || rewrite Z.lnot_spec by assumption);
  repeat match goal with
         | |- context [Z.testbit ?a ?n] =>
             is_var a; destruct (Z.testbit a n)
         | |- context [Z.testbit (Z.shiftl 1 ?i) ?n] =>
             destruct (Z.testbit (Z.shiftl 1 i) n)
         end;
  reflexivity.

(** (X6) For every bitset and every index (a negative one raises on both
    sides): adding twice is adding once, removing twice is removing once,
    removing after adding is removing, and adding after removing is
    adding. *)
Theorem bitset_update_algebra :
  forall bs i,
    (b <- bitset_add bs i ;; bitset_add b i) = bitset_add bs i /\
    (b <- bitset_remove bs i ;; bitset_remove b i) = bitset_remove bs i /\
    (b <- bitset_add bs i ;; bitset_remove b i) = bitset_remove bs i /\
    (b <- bitset_remove bs i ;; bitset_add b i) = bitset_add bs i.
Proof.
  intros bs i. unfold bitset_add, bitset_remove, lshift.
  destruct (i <? 0); simpl; [repeat split |].
  repeat split; f_equal; bitwise.
Qed.

(** Two strictly ascending lists with the same members are equal. *)
Lemma sorted_same_members (l1 : list Z) :
  StronglySorted Z.lt l1 ->
  forall l2, StronglySorted Z.lt l2 ->
    (forall j, In j l1 <-> In j l2) -> l1 = l2.
Proof.
  induction 1 as [| x xs Hxs IH Hx]; intros l2 Hl2 Hsame.
  - destruct l2 as [| y ys]; [reflexivity |].
    destruct (proj2 (Hsame y) (or_introl eq_refl)).
  - destruct l2 as [| y ys].
    { destruct (proj1 (Hsame x) (or_introl eq_refl)). }
    inversion Hl2 as [| ? ? Hys Hy]; subst.
    rewrite Forall_forall in Hx, Hy.
    assert (x = y).
    { destruct (proj1 (Hsame x) (or_introl eq_refl)) as [Heq | Hin1]; [now subst |].
      destruct (proj2 (Hsame y) (or_introl eq_refl)) as [Heq | Hin2]; [now subst |].
      specialize (Hx _ Hin2). specialize (Hy _ Hin1). lia. }
    subst y. f_equal. apply IH; [assumption |].
    intros j. split; intros Hin.
    + destruct (proj1 (Hsame j) (or_intror Hin)) as [Heq | ?]; [| assumption].
      subst j. specialize (Hx _ Hin). lia.
    + destruct (proj2 (Hsame j) (or_intror Hin)) as [Heq | ?]; [| assumption].
      subst j. specialize (Hy _ Hin). lia.
Qed.

Lemma bitset_contains_true (bs j : Z) :
  bitset_contains bs j = Ok true <-> 0 <= j /\ Z.testbit bs j = true.
Proof.
  unfold bitset_contains, rshift.
  destruct (Z.ltb_spec j 0) as [Hlt | Hge]; simpl.
  - split; [discriminate | lia].
  - rewrite contains_testbit by assumption. split.
    + intros H. injection H as H. auto.
    + intros [_ H]. now rewrite H.
Qed.

(** (X7) On every non-negative bitset [bs], the one built by
    [bitset_from_indices] or any other, the generator [bitset_iter] stops
    after at most [bs] turns and has yielded, in strictly ascending order,
    exactly the indices that [bitset_contains] finds in [bs]. *)
Theorem bitset_iter_nonneg :
  forall bs, 0 <= bs ->
    exists out,
      (forall fuel, (Z.to_nat bs <= fuel)%nat -> bitset_iter fuel bs = Some out) /\
      StronglySorted Z.lt out /\
      forall j, In j out <-> bitset_contains bs j = Ok true.
Proof.
  intros bs Hbs.
  destruct (bitset_iter_spec (Z.to_nat bs) bs ltac:(lia))
    as [out [_ [Hsorted Hout]]].
  exists out. split; [| split; [assumption |]].
  - intros fuel Hfuel.
    destruct (bitset_iter_spec fuel bs ltac:(lia)) as [out' [Hrun [Hsorted' Hout']]].
    rewrite Hrun. f_equal. apply sorted_same_members; try assumption.
    intros j. rewrite Hout, Hout'. tauto.
  - intros j. rewrite Hout, bitset_contains_true. split; [| tauto].
    intros Hbit. split; [| assumption].
    destruct (Z_lt_le_dec j 0) as [Hneg | Hpos]; [| assumption].
    rewrite Z.testbit_neg_r in Hbit by assumption. discriminate.
Qed.

Lemma bitset_iter_nonneg_witness :
  exists out,
    (forall fuel, (Z.to_nat 37 <= fuel)%nat -> bitset_iter fuel 37 = Some out) /\
    StronglySorted Z.lt out /\
    forall j, In j out <-> bitset_contains 37 j = Ok true.
Proof.
  apply (bitset_iter_nonneg 37). lia.
Defined.

(** (X8) On a negative bitset the generator [bitset_iter] never stops:
    clearing the lowest set bit of a negative number leaves a negative
    number, so no amount of fuel reaches the end. *)
Theorem bitset_iter_negative_diverges :
  forall fuel bs, bs < 0 -> bitset_iter fuel bs = None.
Proof.
  induction fuel as [| fuel IH]; intros bs Hbs; simpl;
    destruct (Z.eqb_spec bs 0) as [H0 | _]; try lia; [reflexivity |].
  rewrite IH; [reflexivity |].
  assert (Hlb : 0 <= Z.land bs (- bs)) by (apply Z.land_nonneg; lia).
  destruct (Z_lt_le_dec (Z.lxor bs (Z.land bs (- bs))) 0) as [Hlt | Hge];
    [assumption |].
  apply Z.lxor_nonneg in Hge. lia.
Qed.

Lemma bitset_iter_negative_diverges_witness :
  bitset_iter 1000 (-1) = None.
Proof.
  apply (bitset_iter_negative_diverges 1000 (-1)). lia.
Defined.

(** ** Extended Euclid and the modular inverse *)

(** (X9) For all integers [a] and [b], negative ones and zero included,
    [egcd a b] returns [(g, x, y)] with [a * x + b * y = g], and [g] is the
    greatest common divisor of [a] and [b] up to its sign. *)
Theorem egcd_bezout_all_integers :
  forall a b,
    exists g x y, egcd a b = (g, x, y) /\
                  a * x + b * y = g /\ Z.abs g = Z.gcd a b.
Proof.
  intros a b. pose proof (egcd_bezout a b) as Hbez.
  destruct (egcd a b) as [[g x] y]. now exists g, x, y.
Qed.

(** (X10) The first component of [egcd a b] is the greatest common divisor
    with the sign of [b]: [gcd a b] when [b > 0], [- gcd a b] when [b < 0],
    and [a] itself when [b = 0]. *)
Theorem egcd_g_by_sign_of_b :
  forall a b,
    (0 < b -> fst (fst (egcd a b)) = Z.gcd a b) /\
    (b < 0 -> fst (fst (egcd a b)) = - Z.gcd a b) /\
    (b = 0 -> fst (fst (egcd a b)) = a).
Proof.
  intros a b.
  pose proof (egcd_bezout a b) as Hbez.
  pose proof (egcd_g_nonneg a b) as Hpos.
  pose proof (egcd_g_neg a b) as Hneg.
  destruct (egcd a b) as [[g x] y] eqn:He. simpl in *.
  destruct Hbez as [_ Habs].
  split; [intros Hb; specialize (Hpos (or_introl Hb)); lia |].
  split; [intros Hb; specialize (Hneg (or_introl Hb)); lia |].
  intros ->. unfold egcd in He.
  rewrite egcd_loop_exit in He by reflexivity.
  injection He as <- _ _. reflexivity.
Qed.

Lemma egcd_g_by_sign_of_b_witness :
  fst (fst (egcd (-240) 46)) = Z.gcd (-240) 46 /\
  fst (fst (egcd 240 (-46))) = - Z.gcd 240 (-46) /\
  fst (fst (egcd (-7) 0)) = -7.
Proof.
  split; [| split].
  - apply (proj1 (egcd_g_by_sign_of_b (-240) 46)). lia.
  - apply (proj1 (proj2 (egcd_g_by_sign_of_b 240 (-46)))). lia.
  - apply (proj2 (proj2 (egcd_g_by_sign_of_b (-7) 0))). reflexivity.
Defined.

Lemma egcd_0_l (b : Z) : b <> 0 -> egcd 0 b = (b, 0, 1).
Proof.
  intros Hb. unfold egcd.
  rewrite egcd_loop_turn by (simpl; assumption).
  rewrite egcd_loop_exit.
  - reflexivity.
  - reflexivity.
Qed.

(** (X11) Zero arguments: [egcd a 0] leaves the loop at once and returns
    [(a, 1, 0)], so [egcd 0 0 = (0, 1, 0)]; [egcd 0 b] for [b <> 0] takes
    one turn and returns [(b, 0, 1)]. *)
Theorem egcd_zero_arguments :
  forall c,
    egcd c 0 = (c, 1, 0) /\ (c <> 0 -> egcd 0 c = (c, 0, 1)).
Proof.
  intros c. split; [| apply egcd_0_l].
  unfold egcd. rewrite egcd_loop_exit by reflexivity. reflexivity.
Qed.

Lemma egcd_zero_arguments_witness :
  egcd (-7) 0 = (-7, 1, 0) /\ egcd 0 (-7) = (-7, 0, 1).
Proof.
  split.
  - apply (proj1 (egcd_zero_arguments (-7))).
  - apply (proj2 (egcd_zero_arguments (-7))). lia.
Defined.

(** (X12) Moduli outside [m > 1]: [modinv a 0] raises
    [ZeroDivisionError]; with a negative modulus [modinv] raises "inverse
    does not exist" for every [a], invertible or not; [modinv a 1] is 0. *)
Theorem modinv_degenerate_moduli :
  forall a m,
    (m = 0 -> modinv a m = Raise (ZeroDivisionError "integer modulo by zero")) /\
    (m < 0 -> modinv a m = Raise (ValueError "inverse does not exist")) /\
    (m = 1 -> modinv a m = Ok 0).
Proof.
  intros a m. split; [| split].
  - intros ->. reflexivity.
  - intros Hm. unfold modinv, pymod.
    destruct (Z.eqb_spec m 0) as [H0 | _]; [lia |]. cbn [bind].
    pose proof (egcd_g_neg (a mod m) m (or_introl Hm)) as Hg.
    destruct (egcd (a mod m) m) as [[g x] y]. simpl in Hg.
    destruct (Z.eqb_spec g 1) as [H1 | _]; [lia | reflexivity].
  - intros ->. unfold modinv, pymod. simpl (1 =? 0). cbn [bind].
    rewrite Z.mod_1_r, egcd_0_l by lia. reflexivity.
Qed.

Lemma modinv_degenerate_moduli_witness :
  modinv 3 0 = Raise (ZeroDivisionError "integer modulo by zero") /\
  modinv 1 (-5) = Raise (ValueError "inverse does not exist") /\
  modinv 3 1 = Ok 0.
Proof.
  split; [| split].
  - apply (proj1 (modinv_degenerate_moduli 3 0)). reflexivity.
  - apply (proj1 (proj2 (modinv_degenerate_moduli 1 (-5)))). lia.
  - apply (proj2 (proj2 (modinv_degenerate_moduli 3 1))). reflexivity.
Defined.

Lemma modinv_coprime (a m : Z) :
  1 < m -> Z.gcd a m = 1 ->
  exists x, modinv a m = Ok x /\ 0 <= x < m /\ (a * x) mod m = 1.
Proof.
  intros Hm Hgcd. unfold modinv, pymod.
  destruct (Z.eqb_spec m 0) as [Hm0 | _]; [lia |]. cbn [bind].
  pose proof (egcd_bezout (a mod m) m) as Hbez.
  pose proof (egcd_g_nonneg (a mod m) m ltac:(lia)) as Hg.
  destruct (egcd (a mod m) m) as [[g x] y]. simpl in Hg.
  destruct Hbez as [Hlin Habs].
  rewrite Z.gcd_mod, Z.gcd_comm in Habs by lia.
  assert (Hg1 : g = 1) by lia. rewrite Hg1 in *. simpl.
  exists (x mod m). split; [reflexivity |].
  split; [apply Z.mod_pos_bound; lia |].
  rewrite Z.mul_mod_idemp_r, <- Z.mul_mod_idemp_l by lia.
  replace (a mod m * x) with (1 + (- y) * m) by lia.
  rewrite Z.mod_add by lia. apply Z.mod_small. lia.
Qed.

Lemma inverse_coprime (a m y : Z) :
  1 < m -> (a * y) mod m = 1 -> Z.gcd a m = 1.
Proof.
  intros Hm Hy.
  pose proof (Z.gcd_nonneg a m) as Hnn.
  pose proof (Z.gcd_divide_l a m) as [u Hu].
  pose proof (Z.gcd_divide_r a m) as [v Hv].
  assert (Hdiv : (Z.gcd a m | 1)).
  { rewrite Z.mod_eq in Hy by lia.
    exists (u * y - v * (a * y / m)).
    rewrite <- Hy at 1. rewrite Hu at 1. rewrite Hv at 2. ring. }
  apply Z.divide_1_r_nonneg in Hdiv; assumption.
Qed.

Lemma modinv_unique_aux (a m x y : Z) :
  1 < m -> 0 <= x < m -> 0 <= y < m ->
  (a * x) mod m = 1 -> (a * y) mod m = 1 -> x = y.
Proof.
  intros Hm Hx Hy Hax Hay.
  assert (Hxy : x mod m = y mod m).
  { rewrite <- (Z.mul_1_r x) at 1. rewrite <- Hay.
    rewrite Z.mul_mod_idemp_r by lia.
    replace (x * (a * y)) with (a * x * y) by ring.
    rewrite <- Z.mul_mod_idemp_l, Hax by lia.
    now rewrite Z.mul_1_l. }
  rewrite !Z.mod_small in Hxy by assumption. assumption.
Qed.

(** (X13) For [m > 1], [modinv a m] returns the only inverse there is:
    every [y] in [0, m) with [(a * y) mod m = 1] is the value returned. *)
Theorem modinv_unique :
  forall a m y, 1 < m -> 0 <= y < m -> (a * y) mod m = 1 ->
    modinv a m = Ok y.
Proof.
  intros a m y Hm Hy Hay.
  destruct (modinv_coprime a m Hm (inverse_coprime a m y Hm Hay))
    as [x [Hrun [Hx Hax]]].
  rewrite Hrun. f_equal. now apply (modinv_unique_aux a m).
Qed.

Lemma modinv_unique_witness : modinv 3 11 = Ok 4.
Proof.
  apply (modinv_unique 3 11 4); [lia | lia | reflexivity].
Defined.

(** (X14) For [m > 1] and [a] coprime to [m], inverting twice gives back
    [a mod m]: [modinv (modinv a m) m = a mod m]. *)
Theorem modinv_involutive :
  forall a m, 1 < m -> Z.gcd a m = 1 ->
    (x <- modinv a m ;; modinv x m) = Ok (a mod m).
Proof.
  intros a m Hm Hgcd.
  destruct (modinv_coprime a m Hm Hgcd) as [x [Hrun [Hx Hax]]].
  rewrite Hrun. cbn [bind].
  assert (Hxa : (x * (a mod m)) mod m = 1)
    by (rewrite Z.mul_mod_idemp_r, Z.mul_comm by lia; assumption).
  destruct (modinv_coprime x m Hm (inverse_coprime x m _ Hm Hxa))
    as [z [Hrun' [Hz Hxz]]].
  rewrite Hrun'. f_equal.
  apply (modinv_unique_aux x m); try assumption.
  apply Z.mod_pos_bound. lia.
Qed.

Lemma modinv_involutive_witness :
  (x <- modinv 25 11 ;; modinv x 11) = Ok (25 mod 11).
Proof.
  apply (modinv_involutive 25 11); [lia | reflexivity].
Defined.

(** ** Miller-Rabin *)

Lemma _decompose_loop_neg_spec (p : positive) :
  forall s0, let '(d, s) := _decompose_loop p Zneg s0 in
             s0 <= s /\ Zneg p = d * 2 ^ (s - s0) /\ Z.odd d = true.
Proof.
  induction p as [p _ | p IH |]; intros s0; cbn [_decompose_loop].
  - rewrite Z.sub_diag. repeat split; lia.
  - specialize (IH (s0 + 1)).
    destruct (_decompose_loop p Zneg (s0 + 1)) as [d s].
    destruct IH as [Hs [Hp Hd]]. repeat split; [lia | | assumption].
    replace (s - s0) with (s - (s0 + 1) + 1) by lia.
    rewrite Z.pow_add_r by lia. change (Zneg p~0) with (2 * Zneg p). rewrite Hp. ring.
  - rewrite Z.sub_diag. repeat split; lia.
Qed.

(** (X15) [_decompose n] writes [n - 1] as [d * 2^s] with [d] odd and
    [s >= 0], for every [n] except 1 (negative [n] included); on [n = 1]
    its loop never ends. *)
Theorem _decompose_odd_part :
  forall n,
    (n = 1 -> _decompose n = None) /\
    (n <> 1 ->
       exists d s, _decompose n = Some (d, s) /\
                   0 <= s /\ n - 1 = d * 2 ^ s /\ Z.odd d = true).
Proof.
  intros n. split; [intros ->; reflexivity |].
  intros Hn. unfold _decompose.
  destruct (n - 1) as [| p | p] eqn:Hn1; [lia | |].
  - pose proof (_decompose_loop_spec p 0) as H.
    destruct (_decompose_loop p Zpos 0) as [d s].
    exists d, s. rewrite Z.sub_0_r in H. intuition.
  - pose proof (_decompose_loop_neg_spec p 0) as H.
    destruct (_decompose_loop p Zneg 0) as [d s].
    exists d, s. rewrite Z.sub_0_r in H. intuition.
Qed.

Lemma _decompose_odd_part_witness :
  _decompose 1 = None /\
  exists d s, _decompose 21 = Some (d, s) /\
              0 <= s /\ 21 - 1 = d * 2 ^ s /\ Z.odd d = true.
Proof.
  split.
  - apply (proj1 (_decompose_odd_part 1)). reflexivity.
  - apply (proj2 (_decompose_odd_part 21)). lia.
Defined.

Lemma pow_square_step (x : Z) (j : nat) :
  (x * x) ^ (2 ^ Z.of_nat j) = x ^ (2 ^ Z.of_nat (S j)).
Proof.
  rewrite Nat2Z.inj_succ, Z.pow_succ_r by lia.
  rewrite Z.pow_mul_r by (try apply Z.pow_nonneg; lia).
  rewrite Z.pow_2_r. reflexivity.
Qed.

(** The squaring loop finds [n - 1] among [x^2, x^4, ..., x^(2^k)]. *)
Lemma _check_witness_loop_spec (n : Z) (k : nat) :
  forall x,
    _check_witness_loop k x n = true <->
    exists j, (1 <= j <= k)%nat /\ x ^ (2 ^ Z.of_nat j) mod n = n - 1.
Proof.
  induction k as [| k IH]; intros x; simpl.
  - split; [discriminate | intros [j [Hj _]]; lia].
  - destruct (Z.eqb_spec ((x * x) mod n) (n - 1)) as [Heq | Hne].
    + split; [intros _ | reflexivity].
      exists 1%nat. split; [lia |].
      change (2 ^ Z.of_nat 1) with 2. rewrite Z.pow_2_r. assumption.
    + rewrite IH. split.
      * intros [j [Hj Hx]]. exists (S j). split; [lia |].
        rewrite Z.mod_pow_l, pow_square_step in Hx. assumption.
      * intros [j [Hj Hx]].
        destruct j as [| j]; [lia |].
        destruct j as [| j].
        { change (2 ^ Z.of_nat 1) with 2 in Hx. rewrite Z.pow_2_r in Hx.
          contradiction. }
        exists (S j). split; [lia |].
        rewrite Z.mod_pow_l, pow_square_step. assumption.
Qed.

Lemma _check_witness_closed_form (a s d n : Z) :
  0 <= d -> n <> 0 ->
  _check_witness a s d n = true <->
  a ^ d mod n = 1 \/
  exists i, 0 <= i < Z.max 1 s /\ a ^ (d * 2 ^ i) mod n = n - 1.
Proof.
  intros Hd Hn. unfold _check_witness.
  rewrite pow3_spec by assumption.
  destruct (Z.eqb_spec (a ^ d mod n) 1) as [H1 | H1]; simpl.
  { split; [intros _; now left | reflexivity]. }
  destruct (Z.eqb_spec (a ^ d mod n) (n - 1)) as [Hm | Hm].
  { split; [intros _; right | reflexivity].
    exists 0. split; [lia |]. now rewrite Z.mul_1_r. }
  rewrite _check_witness_loop_spec. split.
  - intros [j [Hj Hx]]. right. exists (Z.of_nat j). split; [lia |].
    rewrite Z.mod_pow_l, <- Z.pow_mul_r in Hx
      by (try apply Z.pow_nonneg; lia).
    assumption.
  - intros [Hone | [i [Hi Hx]]]; [contradiction |].
    destruct (Z.eq_dec i 0) as [-> | Hi0].
    { rewrite Z.mul_1_r in Hx. contradiction. }
    exists (Z.to_nat i). split; [lia |].
    rewrite Z2Nat.id by lia.
    rewrite Z.mod_pow_l, <- Z.pow_mul_r by (try apply Z.pow_nonneg; lia).
    assumption.
Qed.

(** (X16) [_check_witness a s d n] is the strong-probable-prime test in
    closed form: it returns [True] exactly when [a^d mod n = 1] or
    [a^(d * 2^i) mod n = n - 1] for some [i] with [0 <= i < max 1 s]. *)
Theorem _check_witness_spec :
  forall a s d n, 0 <= d -> n <> 0 ->
    _check_witness a s d n = true <->
    a ^ d mod n = 1 \/
    exists i, 0 <= i < Z.max 1 s /\ a ^ (d * 2 ^ i) mod n = n - 1.
Proof.
  exact _check_witness_closed_form.
Qed.

Lemma _check_witness_spec_witness :
  _check_witness 2 2 55 221 = false /\
  ~ (2 ^ 55 mod 221 = 1 \/
     exists i, 0 <= i < Z.max 1 2 /\ 2 ^ (55 * 2 ^ i) mod 221 = 221 - 1).
Proof.
  split; [reflexivity |].
  intros H. apply (_check_witness_spec 2 2 55 221) in H; [| lia | lia].
  discriminate H.
Defined.

(** What each outcome of the trial division tells. *)
Lemma trial_division_true (n : Z) (ps : list Z) :
  trial_division n ps = Some true -> In n ps.
Proof.
  induction ps as [| p ps IH]; simpl; [discriminate |].
  destruct (Z.eqb_spec n p) as [-> | _]; [now left |].
  destruct (n mod p =? 0); [discriminate | auto].
Qed.

Lemma trial_division_false (n : Z) (ps : list Z) :
  trial_division n ps = Some false ->
  exists p, In p ps /\ n <> p /\ n mod p = 0.
Proof.
  induction ps as [| p ps IH]; simpl; [discriminate |].
  destruct (Z.eqb_spec n p) as [-> | Hne]; [discriminate |].
  destruct (Z.eqb_spec (n mod p) 0) as [H0 | _].
  - intros _. exists p. auto.
  - intros H. destruct (IH H) as [q [Hq Hrest]]. exists q. auto.
Qed.

Lemma trial_division_none (n : Z) (ps : list Z) :
  trial_division n ps = None <->
  forall p, In p ps -> n <> p /\ n mod p <> 0.
Proof.
  induction ps as [| p ps IH]; simpl.
  - split; [intros _ p [] | reflexivity].
  - destruct (Z.eqb_spec n p) as [-> | Hne].
    + split; [discriminate | intros H].
      destruct (H p (or_introl eq_refl)) as [Hp _]. contradiction.
    + destruct (Z.eqb_spec (n mod p) 0) as [H0 | H0].
      * split; [discriminate | intros H].
        destruct (H p (or_introl eq_refl)) as [_ Hp]. contradiction.
      * rewrite IH. split.
        -- intros H q [<- | Hq]; auto.
        -- intros H q Hq. apply H. now right.
Qed.

(** The entries of [small] are primes that do not divide each other. *)
Lemma small_coprime (n p : Z) :
  In n small -> In p small -> n mod p = 0 -> n = p.
Proof.
  intros Hn Hp Hmod.
  assert (Hall : forallb (fun n => forallb (fun p =>
                   (n =? p) || negb (n mod p =? 0)) small) small = true)
    by (vm_compute; reflexivity).
  rewrite forallb_forall in Hall. specialize (Hall n Hn).
  rewrite forallb_forall in Hall. specialize (Hall p Hp).
  apply orb_true_iff in Hall. destruct Hall as [Heq | Hne].
  - now apply Z.eqb_eq.
  - rewrite Hmod in Hne. discriminate.
Qed.

Lemma small_bounds (p : Z) : In p small -> 2 <= p <= 29.
Proof.
  intros Hp.
  assert (Hall : forallb (fun p => (2 <=? p) && (p <=? 29)) small = true)
    by (vm_compute; reflexivity).
  rewrite forallb_forall in Hall. specialize (Hall p Hp).
  apply andb_true_iff in Hall. lia.
Qed.

Lemma trial_division_small (p : Z) :
  In p small -> trial_division p small = Some true.
Proof.
  intros Hp.
  assert (Hall : forallb (fun p => match trial_division p small with
                                   | Some true => true
                                   | _ => false
                                   end) small = true)
    by (vm_compute; reflexivity).
  rewrite forallb_forall in Hall. specialize (Hall p Hp).
  destruct (trial_division p small) as [[|] |]; congruence.
Qed.

(** (X17) [is_probable_prime] always returns, although [_decompose] loops
    forever on 1: the case [n < 2] is answered before; and for [n < 2^64]
    the answer is the same for every random source and every [rounds]. *)
Theorem is_probable_prime_returns_deterministic :
  forall (randrange : nat -> Z -> Z -> Z) (n rounds : Z),
    exists v,
      is_probable_prime randrange n rounds = Some v /\
      (n < 2 ^ 64 ->
         forall (randrange' : nat -> Z -> Z -> Z) (rounds' : Z),
           is_probable_prime randrange' n rounds' = Some v).
Proof.
  intros randrange n rounds.
  destruct (is_probable_prime_returns randrange n rounds) as [v Hv].
  exists v. split; [assumption |].
  intros Hn randrange' rounds'. rewrite <- Hv.
  now apply is_probable_prime_deterministic.
Qed.

Lemma is_probable_prime_returns_deterministic_witness :
  exists v,
    is_probable_prime (fun _ _ _ => 2) 1009 8 = Some v /\
    is_probable_prime (fun _ lo _ => lo + 1) 1009 3 = Some v.
Proof.
  destruct (is_probable_prime_returns_deterministic (fun _ _ _ => 2) 1009 8)
    as [v [Hv Hdet]].
  exists v. split; [exact Hv |]. apply Hdet. lia.
Defined.

(** (X18) Trial division: each of the ten small primes is reported prime,
    and every [n >= 2] that has one of them as a proper divisor is reported
    composite, without any witness test. *)
Theorem is_probable_prime_trial_division :
  forall (randrange : nat -> Z -> Z -> Z) (n rounds p : Z),
    In p small ->
    (n = p -> is_probable_prime randrange n rounds = Some true) /\
    (2 <= n -> n <> p -> (p | n) ->
       is_probable_prime randrange n rounds = Some false).
Proof.
  intros randrange n rounds p Hp.
  pose proof (small_bounds p Hp) as Hpb.
  unfold is_probable_prime. split.
  - intros ->. destruct (Z.ltb_spec p 2) as [Hlt | _]; [lia |].
    now rewrite trial_division_small.
  - intros Hn Hne Hdiv. destruct (Z.ltb_spec n 2) as [Hlt | _]; [lia |].
    apply Z.mod_divide in Hdiv; [| lia].
    destruct (trial_division n small) as [[|] |] eqn:Htd.
    + apply trial_division_true in Htd.
      elim Hne. now apply small_coprime.
    + reflexivity.
    + rewrite trial_division_none in Htd.
      destruct (Htd p Hp) as [_ Hmod]. contradiction.
Qed.

Lemma is_probable_prime_trial_division_witness :
  is_probable_prime (fun _ _ _ => 2) 13 8 = Some true /\
  is_probable_prime (fun _ _ _ => 2) 341 8 = Some false.
Proof.
  split.
  - apply (proj1 (is_probable_prime_trial_division (fun _ _ _ => 2) 13 8 13
                    ltac:(simpl; tauto))).
    reflexivity.
  - apply (proj2 (is_probable_prime_trial_division (fun _ _ _ => 2) 341 8 11
                    ltac:(simpl; tauto))); [lia | lia |].
    exists 31. reflexivity.
Defined.

(** Modulo a prime, a square root of 1 is 1 or -1. *)
Lemma prime_sqrt_one (n y : Z) :
  Z.prime n -> (y * y) mod n = 1 -> y mod n = 1 \/ y mod n = n - 1.
Proof.
  intros Hp Hy. pose proof (Z.prime_ge_2 n Hp) as Hn.
  assert (Hdiv : (n | (y - 1) * (y + 1))).
  { rewrite Z.mod_eq in Hy by lia. exists (y * y / n). lia. }
  apply Z.divide_prime_mul in Hdiv; [| assumption].
  destruct Hdiv as [[c Hc] | [c Hc]].
  - left. replace y with (1 + c * n) by lia.
    rewrite Z.mod_add by lia. apply Z.mod_small. lia.
  - right. replace y with (n - 1 + (c - 1) * n) by lia.
    rewrite Z.mod_add by lia. apply Z.mod_small. lia.
Qed.

Lemma mr_descent (a d n : Z) (t : nat) :
  Z.prime n -> 0 <= d ->
  a ^ (d * 2 ^ Z.of_nat t) mod n = 1 ->
  a ^ d mod n = 1 \/
  exists i, 0 <= i < Z.of_nat t /\ a ^ (d * 2 ^ i) mod n = n - 1.
Proof.
  intros Hp Hd. induction t as [| t IH]; intros Hone.
  - left. simpl in Hone. now rewrite Z.mul_1_r in Hone.
  - assert (Hsq : a ^ (d * 2 ^ Z.of_nat (S t))
                  = a ^ (d * 2 ^ Z.of_nat t) * a ^ (d * 2 ^ Z.of_nat t)).
    { rewrite <- Z.pow_add_r by (apply Z.mul_nonneg_nonneg;
                                 [assumption | apply Z.pow_nonneg; lia]).
      f_equal. rewrite Nat2Z.inj_succ, Z.pow_succ_r by lia. ring. }
    rewrite Hsq in Hone. rewrite <- Z.mul_mod_idemp_l, <- Z.mul_mod_idemp_r in Hone
      by (pose proof (Z.prime_ge_2 n Hp); lia).
    apply prime_sqrt_one in Hone; [| assumption].
    rewrite !Z.mod_mod in Hone by (pose proof (Z.prime_ge_2 n Hp); lia).
    destruct Hone as [H1 | Hm1].
    + destruct (IH H1) as [Hd1 | [i [Hi Hx]]]; [now left | right].
      exists i. split; [lia | assumption].
    + right. exists (Z.of_nat t). split; [lia | assumption].
Qed.

(** A prime passes the check for every base it does not divide. *)
Lemma prime_passes_witness (a s d n : Z) :
  Z.prime n -> a mod n <> 0 -> 0 <= d -> 1 <= s -> n - 1 = d * 2 ^ s ->
  _check_witness a s d n = true.
Proof.
  intros Hp Ha Hd Hs Hn. pose proof (Z.prime_ge_2 n Hp) as Hn2.
  apply _check_witness_closed_form; [assumption | lia |].
  pose proof (Zmod.ZmodInv.Z.fermat_nz n a Hp Ha) as Hfermat.
  rewrite Hn in Hfermat. rewrite <- (Z2Nat.id s) in Hfermat by lia.
  destruct (mr_descent a d n (Z.to_nat s) Hp Hd Hfermat) as [H1 | [i [Hi Hx]]].
  - now left.
  - right. exists i. split; [lia | assumption].
Qed.

Lemma trial_division_none_ge_30 (n : Z) :
  2 <= n -> trial_division n small = None -> 30 <= n.
Proof.
  intros Hn Htd.
  destruct (Z_lt_le_dec n 30) as [Hlt | Hge]; [exfalso | assumption].
  assert (Hall : forallb (fun n => match trial_division n small with
                                   | None => false
                                   | Some _ => true
                                   end) (range 2 30 1) = true)
    by (vm_compute; reflexivity).
  rewrite forallb_forall in Hall.
  assert (Hin : In n (range 2 30 1))
    by (apply range_In; [lia |]; exists (n - 2); lia).
  specialize (Hall n Hin). rewrite Htd in Hall. discriminate.
Qed.

Lemma prime_survives_trial_division (n : Z) :
  Z.prime n -> trial_division n small <> Some false.
Proof.
  intros Hp Htd. apply trial_division_false in Htd.
  destruct Htd as [p [Hin [Hne Hmod]]].
  pose proof (small_bounds p Hin) as Hpb.
  apply Z.mod_divide in Hmod; [| lia].
  destruct (Z.divide_prime_r p n Hp Hmod) as [H | [H | [H | H]]];
    pose proof (Z.prime_ge_2 n Hp); lia.
Qed.

Lemma primes_accepted (randrange : nat -> Z -> Z -> Z) (n rounds : Z) :
  (forall k lo hi, lo < hi -> lo <= randrange k lo hi < hi) ->
  Z.prime n ->
  is_probable_prime randrange n rounds = Some true.
Proof.
  intros Hrand Hp.
  pose proof (Z.prime_ge_2 n Hp) as Hn2.
  pose proof (prime_survives_trial_division n Hp) as Hsurv.
  unfold is_probable_prime.
  destruct (Z.ltb_spec n 2) as [Hlt | _]; [lia |].
  destruct (trial_division n small) as [[|] |] eqn:Htd;
    [reflexivity | contradiction |].
  pose proof (trial_division_none_ge_30 n Hn2 Htd) as Hn30.
  rewrite trial_division_none in Htd.
  destruct (_decompose_spec n Hn2) as [d [s [Hdec [Hs [Hn Hodd]]]]].
  rewrite Hdec. f_equal.
  assert (Hs1 : 1 <= s).
  { destruct (Z.eq_dec s 0) as [-> | Hs0]; [exfalso | lia].
    destruct (Htd 2 ltac:(simpl; tauto)) as [_ Hmod2].
    apply Hmod2. rewrite Z.mul_1_r in Hn.
    apply Z.odd_spec in Hodd. destruct Hodd as [u Hu].
    apply Z.mod_divide; [lia |]. exists (u + 1). lia. }
  assert (Hd : 0 <= d).
  { assert (0 < 2 ^ s) by (apply Z.pow_pos_nonneg; lia). nia. }
  apply forallb_forall. intros a Ha.
  apply prime_passes_witness; try assumption.
  assert (Hrange : 2 <= a < n); [| rewrite Z.mod_small; lia].
  change (Z.shiftl 1 64) with (2 ^ 64) in Ha.
  destruct (Z.ltb_spec n (2 ^ 64)) as [Hsmall | Hbig].
  - assert (Hall : forallb (fun a => (2 <=? a) && (a <=? 17)) _DET_BASES_64 = true)
      by (vm_compute; reflexivity).
    rewrite forallb_forall in Hall. specialize (Hall a Ha).
    apply andb_true_iff in Hall. lia.
  - apply in_map_iff in Ha. destruct Ha as [k [<- _]].
    pose proof (Hrand k 2 (n - 2) ltac:(lia)). lia.
Qed.

(** (X19) No false negative: [is_probable_prime] reports every prime as
    prime, in the deterministic range and above it, whatever [rounds] is,
    as long as the random source returns values of the requested range. *)
Theorem is_probable_prime_accepts_primes :
  forall (randrange : nat -> Z -> Z -> Z) (n rounds : Z),
    (forall k lo hi, lo < hi -> lo <= randrange k lo hi < hi) ->
    Z.prime n ->
    is_probable_prime randrange n rounds = Some true.
Proof.
  exact primes_accepted.
Qed.

Example prime_1009 : Z.prime 1009.
Proof.
  apply (sieve_spec 1010 ltac:(lia)).
  apply existsb_eqb_In. vm_compute. reflexivity.
Qed.

Lemma is_probable_prime_accepts_primes_witness :
  is_probable_prime (fun _ lo _ => lo) 1009 8 = Some true.
Proof.
  apply (is_probable_prime_accepts_primes (fun _ lo _ => lo) 1009 8).
  - intros k lo hi Hlt. lia.
  - exact prime_1009.
Defined.

(** (X20) With [rounds <= 0] nothing is tested above [2^64]: every
    [n >= 2^64] without a factor among the ten small primes is reported
    prime, composite or not. *)
Theorem is_probable_prime_no_rounds :
  forall (randrange : nat -> Z -> Z -> Z) (n rounds : Z),
    2 ^ 64 <= n -> rounds <= 0 ->
    (forall p, In p small -> n mod p <> 0) ->
    is_probable_prime randrange n rounds = Some true.
Proof.
  intros randrange n rounds Hn Hrounds Hcoprime.
  unfold is_probable_prime.
  destruct (Z.ltb_spec n 2) as [Hlt | _]; [lia |].
  assert (Htd : trial_division n small = None).
  { apply trial_division_none. intros p Hp.
    split; [| now apply Hcoprime].
    pose proof (small_bounds p Hp). lia. }
  rewrite Htd.
  destruct (_decompose_spec n ltac:(lia)) as [d [s [Hdec _]]].
  rewrite Hdec. change (Z.shiftl 1 64) with (2 ^ 64).
  destruct (Z.ltb_spec n (2 ^ 64)) as [Hsmall | _]; [lia |].
  replace (Z.to_nat rounds) with 0%nat by lia. reflexivity.
Qed.

Lemma is_probable_prime_no_rounds_witness :
  31 ^ 13 = 31 * 31 ^ 12 /\
  is_probable_prime (fun _ lo _ => lo) (31 ^ 13) 0 = Some true.
Proof.
  split; [reflexivity |].
  apply (is_probable_prime_no_rounds (fun _ lo _ => lo) (31 ^ 13) 0).
  - vm_compute. discriminate.
  - lia.
  - intros p Hp.
    assert (Hall : forallb (fun p => negb (31 ^ 13 mod p =? 0)) small = true)
      by (vm_compute; reflexivity).
    rewrite forallb_forall in Hall. specialize (Hall p Hp).
    apply negb_true_iff, Z.eqb_neq in Hall. exact Hall.
Defined.

Lemma all_from_spec (f : Z -> bool) (k : nat) :
  forall lo, all_from k lo f = true ->
    forall n, lo <= n < lo + Z.of_nat k -> f n = true.
Proof.
  induction k as [| k IH]; intros lo Hall n Hn; [lia |].
  simpl in Hall. destruct (f lo) eqn:Hlo; [| discriminate].
  destruct (Z.eq_dec n lo) as [-> | Hne]; [assumption |].
  apply (IH (lo + 1) Hall). lia.
Qed.

Lemma no_small_divisor_prime (n : Z) :
  2 <= n -> no_small_divisor n = true -> Z.prime n.
Proof.
  intros Hn Hcheck.
  destruct (least_divisor n ltac:(lia)) as [e [He [[m Hm] Hmin]]].
  destruct (Z.eq_dec e n) as [-> | Hne]; [split; [lia | exact Hmin] | exfalso].
  assert (Hm1 : 1 < m) by nia.
  assert (Hme : e <= m).
  { destruct (Z_le_gt_dec e m); [assumption | exfalso].
    apply (Hmin m); [lia |]. exists e. lia. }
  assert (Hsqrt : e <= Z.sqrt n) by (apply Z.sqrt_le_square; nia).
  pose proof (all_from_spec _ _ _ Hcheck e ltac:(lia)) as He'.
  simpl in He'. apply negb_true_iff, Z.eqb_neq in He'.
  apply He'. apply Z.mod_divide; [lia |]. now exists m.
Qed.

(** (X21) Below 10000 the verdict is exact: for every [n < 10000],
    negative numbers included, [is_probable_prime] reports prime exactly
    when [n] is prime, for every random source and every [rounds]. *)
Theorem is_probable_prime_exact_below_10000 :
  forall (randrange : nat -> Z -> Z -> Z) (n rounds : Z),
    n < 10000 ->
    (is_probable_prime randrange n rounds = Some true <-> Z.prime n).
Proof.
  intros randrange n rounds Hn.
  rewrite (is_probable_prime_deterministic randrange (fun _ lo _ => lo) rounds 8 n)
    by lia.
  split.
  - intros Hacc.
    destruct (Z_lt_le_dec n 2) as [Hlt | Hge].
    + unfold is_probable_prime in Hacc.
      destruct (Z.ltb_spec n 2); [discriminate | lia].
    + assert (Hall : all_from (Z.to_nat 10000) 0 accepted_is_prime = true)
        by (vm_compute; reflexivity).
      pose proof (all_from_spec _ _ _ Hall n ltac:(lia)) as Hcheck.
      unfold accepted_is_prime in Hcheck. rewrite Hacc in Hcheck.
      now apply no_small_divisor_prime.
  - intros Hp. apply primes_accepted; [| assumption].
    intros k lo hi Hlt. lia.
Qed.

Lemma is_probable_prime_exact_below_10000_witness :
  is_probable_prime (fun _ _ hi => hi - 1) 9409 3 = Some true <-> Z.prime 9409.
Proof.
  apply (is_probable_prime_exact_below_10000 (fun _ _ hi => hi - 1) 9409 3). lia.
Defined.

(** ** Sieve *)







(** ** [integer_basics.py] *)

(** (X25) [is_even n] holds exactly for the even integers, negative ones
    included. *)
Theorem is_even_spec :
  forall n, is_even n = true <-> exists k, n = 2 * k.
Proof.
  intros n. unfold is_even.
  change 1 with (Z.ones 1). rewrite Z.land_ones by lia.
  rewrite Z.pow_1_r, Z.eqb_eq, Z.mod_divide by lia.
  split; intros [k Hk]; exists k; lia.
Qed.

(** Clearing the lowest set bit, in the two ways the code does it. *)
Lemma land_pred_lxor_lowbit (n : Z) :
  n <> 0 -> Z.land n (n - 1) = Z.lxor n (Z.land n (- n)).
Proof.
  intros Hn. destruct (nonzero_pow2_odd n Hn) as [k [m [Hk ->]]].
  fold (lowbit (2 ^ k * (2 * m + 1))).
  rewrite lowbit_pow2_odd, lxor_lowbit by assumption.
  assert (Hpow : 0 < 2 ^ k) by (apply Z.pow_pos_nonneg; lia).
  assert (Hhi : forall x i, 0 <= x < 2 ^ (k + 1) -> k < i ->
                  Z.testbit (2 ^ (k + 1) * m + x) i = Z.testbit m (i - (k + 1))).
  { intros x i Hx Hi.
    replace (Z.testbit (2 ^ (k + 1) * m + x) i)
      with (Z.testbit ((2 ^ (k + 1) * m + x) / 2 ^ (k + 1)) (i - (k + 1)))
      by (rewrite Z.div_pow2_bits by lia; f_equal; lia).
    f_equal.
    replace (2 ^ (k + 1) * m + x) with (x + m * 2 ^ (k + 1)) by ring.
    rewrite Z.div_add, Z.div_small by lia. reflexivity. }
  assert (Hlo : forall i, 0 <= i <= k -> Z.testbit (2 ^ (k + 1) * m) i = false).
  { intros i Hi. rewrite Z.mul_comm. apply Z.mul_pow2_bits_low. lia. }
  assert (Hk1 : 2 ^ (k + 1) = 2 * 2 ^ k) by (rewrite Z.pow_add_r by lia; ring).
  apply Z.bits_inj'. intros i Hi. rewrite Z.land_spec.
  destruct (Z_le_gt_dec i k) as [Hle | Hgt].
  - rewrite Hlo by lia.
    destruct (Z.eq_dec i k) as [-> | Hne].
    + apply andb_false_intro2.
      replace (2 ^ k * (2 * m + 1) - 1) with (2 ^ k - 1 + (2 * m) * 2 ^ k) by ring.
      rewrite Z.testbit_eqb by lia.
      rewrite Z.div_add, Z.div_small by lia.
      rewrite Z.add_0_l, Z.mul_comm, Z.mod_mul by lia. reflexivity.
    + apply andb_false_intro1.
      rewrite Z.mul_comm. apply Z.mul_pow2_bits_low. lia.
  - replace (2 ^ k * (2 * m + 1)) with (2 ^ (k + 1) * m + 2 ^ k) by lia.
    replace (2 ^ (k + 1) * m + 2 ^ k - 1) with (2 ^ (k + 1) * m + (2 ^ k - 1)) by ring.
    assert (Hlt : k < i) by lia.
    rewrite (Hhi (2 ^ k) i), (Hhi (2 ^ k - 1) i) by (assumption || lia).
    replace (2 ^ (k + 1) * m) with (2 ^ (k + 1) * m + 0) by ring.
    rewrite (Hhi 0 i) by (assumption || lia). apply andb_diag.
Qed.

Lemma count_set_bits_loop_iter (fuel : nat) :
  forall n c,
    count_set_bits_loop fuel n c
    = match bitset_iter fuel n with
      | Some out => Some (c + Z.of_nat (List.length out))
      | None => None
      end.
Proof.
  induction fuel as [| fuel IH]; intros n c; simpl;
    destruct (Z.eqb_spec n 0) as [-> | Hn]; simpl;
    try (f_equal; lia); try reflexivity.
  rewrite IH, land_pred_lxor_lowbit by assumption.
  destruct (bitset_iter fuel (Z.lxor n (Z.land n (- n)))) as [out |];
    [| reflexivity].
  simpl List.length. f_equal. lia.
Qed.

(** (X26) [count_set_bits] and [bitset_iter] walk the same bits: with the
    same fuel, [count_set_bits n] stops exactly when the generator does and
    returns the number of indices it yields.  So on [n >= 0] it returns the
    number of set bits after at most [n] turns, and on [n < 0] it never
    returns. *)
Theorem count_set_bits_spec :
  forall fuel n,
    count_set_bits fuel n
    = match bitset_iter fuel n with
      | Some out => Some (Z.of_nat (List.length out))
      | None => None
      end /\
    (0 <= n -> (Z.to_nat n <= fuel)%nat ->
       exists c, count_set_bits fuel n = Some c) /\
    (n < 0 -> count_set_bits fuel n = None).
Proof.
  intros fuel n. unfold count_set_bits.
  rewrite count_set_bits_loop_iter. split; [reflexivity |]. split.
  - intros Hn Hfuel.
    destruct (bitset_iter_spec fuel n ltac:(lia)) as [out [Hrun _]].
    rewrite Hrun. now eexists.
  - intros Hn.
    assert (Hdiv : bitset_iter fuel n = None).
    { clear - Hn. revert n Hn.
      induction fuel as [| fuel IH]; intros n Hn; simpl;
        destruct (Z.eqb_spec n 0) as [H0 | _]; try lia; [reflexivity |].
      rewrite IH; [reflexivity |].
      assert (Hlb : 0 <= Z.land n (- n)) by (apply Z.land_nonneg; lia).
      destruct (Z_lt_le_dec (Z.lxor n (Z.land n (- n))) 0) as [Hlt | Hge];
        [assumption |].
      apply Z.lxor_nonneg in Hge. lia. }
    now rewrite Hdiv.
Qed.

Lemma count_set_bits_spec_witness :
  (exists c, count_set_bits 45 45 = Some c) /\ count_set_bits 1000 (-1) = None.
Proof.
  destruct (count_set_bits_spec 45 45) as [_ [Hret _]].
  destruct (count_set_bits_spec 1000 (-1)) as [_ [_ Hdiv]].
  split; [apply Hret; lia | apply Hdiv; lia].
Defined.

Lemma gcd_loop_spec (a b : Z) : Z.abs (gcd_loop a b) = Z.gcd a b.
Proof.
  funelim (gcd_loop a b).
  - rewrite e, Z.gcd_0_r. reflexivity.
  - rewrite H, (Z.gcd_comm b), Z.gcd_mod by assumption. apply Z.gcd_comm.
Qed.

(** (X27) [gcd a b] is the non-negative greatest common divisor for all
    integers, negative ones and zero included; it is the absolute value of
    the first component of [egcd a b]. *)
Theorem gcd_spec :
  forall a b,
    gcd a b = Z.gcd a b /\ 0 <= gcd a b /\
    gcd a b = Z.abs (fst (fst (egcd a b))).
Proof.
  intros a b. unfold gcd. rewrite gcd_loop_spec.
  split; [reflexivity |]. split; [apply Z.gcd_nonneg |].
  pose proof (egcd_bezout a b) as Hbez.
  destruct (egcd a b) as [[g x] y]. simpl. symmetry. apply Hbez.
Qed.

(** (X28) [lcm a b] is the least common multiple for all integers: 0 when
    one argument is 0, and never negative. *)
Theorem lcm_spec :
  forall a b, lcm a b = Z.lcm a b.
Proof.
  intros a b. unfold lcm.
  destruct (Z.eqb_spec a 0) as [-> | Ha]; simpl; [now rewrite Z.lcm_0_l |].
  destruct (Z.eqb_spec b 0) as [-> | Hb]; simpl; [now rewrite Z.lcm_0_r |].
  unfold gcd. rewrite gcd_loop_spec. unfold Z.lcm. f_equal.
  assert (Hg : Z.gcd a b <> 0) by (intros H0; apply Z.gcd_eq_0 in H0; lia).
  destruct (Z.gcd_divide_l a b) as [u Hu].
  destruct (Z.gcd_divide_r a b) as [v Hv].
  remember (Z.gcd a b) as g eqn:Heqg. clear Heqg.
  rewrite Hu, Hv, !Z.div_mul by assumption. ring.
Qed.
